(** * acReinforcementLearning: the Actor and the two simulated worlds

    A shallow embedding of [actor.py], [gambler.py] and [pole_balancing.py].

    Modelling conventions.
    - A Python [float] is a real number ([R]): arithmetic is exact, so the
      rounding, overflow, infinities and NaN of binary64 are outside the
      model.  The one infinity the code writes down, [float('-inf')] as the
      initial running maximum, is the constructor [NegInf] of [ereal].
      Where rounding decides a property (the decay of the eligibility),
      [ActorBinary64] embeds the same code on binary64 values.
    - A Python [int] is a [Z]; a [bool] used as an index or inside a key is
      the integer 0 or 1, as Python hashes and compares it.
    - A tuple of ints is a [list Z]; a [defaultdict] is a [gmap] read through
      [defaultdict_getitem], which also records the key it was asked for.
    - A method that mutates [self] takes the object and returns the new one;
      a method that can raise returns a [result].
    - The module-level random generator is an explicit argument: every call
      of [random()], [randint], [uniform] or [random.choice] takes the number
      the generator hands out. *)

From stdpp Require Import gmap list strings.
From Stdlib Require Import Reals Lra.
From Stdlib Require Floats.

(** ** The pieces of the Python runtime the code uses *)

Module Py.

Inductive exn : Type :=
| IndexError
| ValueError
| Exception (msg : string).

Inductive result (A : Type) : Type :=
| Ret (a : A)
| Raise (e : exn).
Arguments Ret {A} a.
Arguments Raise {A} e.

Definition bind {A B} (f : A -> result B) (m : result A) : result B :=
  match m with
  | Ret a => f a
  | Raise e => Raise e
  end.

#[global] Instance result_bind : MBind result := @bind.

Definition is_raise {A} (m : result A) : Prop :=
  match m with Ret _ => False | Raise _ => True end.

(** [x > y], [x >= y], [x < y] and [x == y] on floats. *)
Definition gt (x y : R) : bool := if Rgt_dec x y then true else false.
Definition ge (x y : R) : bool := if Rge_dec x y then true else false.
Definition lt (x y : R) : bool := if Rlt_dec x y then true else false.
Definition eq (x y : R) : bool := if Req_dec_T x y then true else false.

(** A float that may be [float('-inf')]. *)
Inductive ereal : Type :=
| NegInf
| Fin (x : R).

(** [x > b] and [b == x] for a finite [x] and a possibly infinite [b]. *)
Definition gt_e (x : R) (b : ereal) : bool :=
  match b with NegInf => true | Fin y => gt x y end.
Definition eq_e (b : ereal) (x : R) : bool :=
  match b with NegInf => false | Fin y => eq y x end.

(** [list(range(lo, hi))]. *)
Definition range (lo hi : Z) : list Z := seqZ lo (hi - lo).

(** [seq.index(x)]: the first position of [x], [ValueError] when absent. *)
Fixpoint index (l : list Z) (x : Z) : result Z :=
  match l with
  | [] => Raise ValueError
  | y :: l' =>
      if decide (y = x) then Ret 0%Z
      else i ← index l' x; Ret (i + 1)%Z
  end.

(** [random.choice(seq)] is [seq[randbelow(len(seq))]] and raises
    [IndexError] on an empty sequence.  The generator's number [k] is
    reduced into the range of indices. *)
Definition choice {A} (l : list A) (k : nat) : result A :=
  match l !! (k `mod` length l)%nat with
  | Some a => Ret a
  | None => Raise IndexError
  end.

(** [randint(lo, hi)]: an integer of [lo..hi], from the generator's [k]. *)
Definition randint (lo hi : Z) (k : Z) : Z := (lo + k `mod` (hi - lo + 1))%Z.

(** [uniform(a, b)] is [a + (b - a) * random()], [u] being [random()]. *)
Definition uniform (a b u : R) : R := (a + (b - a) * u)%R.

(** [d[k]] on a [defaultdict(lambda: 0)]: a missing key is first stored
    with the default, then read. *)
Definition defaultdict_getitem (d : gmap (list Z) R) (k : list Z)
  : R * gmap (list Z) R :=
  match d !! k with
  | Some v => (v, d)
  | None => (0%R, <[k := 0%R]> d)
  end.

(** What [d[k]] evaluates to, without the side effect. *)
Definition peek (d : gmap (list Z) R) (k : list Z) : R :=
  default 0%R (d !! k).

End Py.


(** ** actor.py *)

Module Actor.
Import Py.

Record t : Type := mk {
  policy : gmap (list Z) R;
  state_action_eligibility : gmap (list Z) R;
  lrate : R;
  drate : R;
  trace_decay : R
}.

Definition with_policy (self : t) (p : gmap (list Z) R) : t :=
  mk p (state_action_eligibility self) (lrate self) (drate self)
     (trace_decay self).

Definition with_eligibility (self : t) (e : gmap (list Z) R) : t :=
  mk (policy self) e (lrate self) (drate self) (trace_decay self).

Definition init (lrate drate trace_decay : R) : t :=
  mk ∅ ∅ lrate drate trace_decay.

Definition initiate_eligibility (self : t) : t :=
  with_eligibility self ∅.

Definition get_state_action_eligibility (self : t) (state_action_pair : list Z)
  : R * t :=
  let '(v, d) :=
    defaultdict_getitem (state_action_eligibility self) state_action_pair in
  (v, with_eligibility self d).

Definition set_state_action_eligibility (self : t)
    (state_action_pair : list Z) (value : R) : t :=
  with_eligibility self
    (<[state_action_pair := value]> (state_action_eligibility self)).

Definition get_state_action_value (self : t) (state_action_pair : list Z)
  : R * t :=
  let '(v, d) := defaultdict_getitem (policy self) state_action_pair in
  (v, with_policy self d).

Definition set_state_action_value (self : t)
    (state_action_pair : list Z) (value : R) : t :=
  with_policy self (<[state_action_pair := value]> (policy self)).

Definition update_state_action_value (self : t)
    (state_action_pair : list Z) (td_error : R) : t :=
  let '(value, self) := get_state_action_value self state_action_pair in
  let '(eligibility, self) :=
    get_state_action_eligibility self state_action_pair in
  let new_state_action_value :=
    (value + lrate self * td_error * eligibility)%R in
  set_state_action_value self state_action_pair new_state_action_value.

Definition update_state_action_eligibility (self : t)
    (state_action_pair : list Z) : t :=
  let '(eligibility, self) :=
    get_state_action_eligibility self state_action_pair in
  let new_state_action_eligibility :=
    (drate self * trace_decay self * eligibility)%R in
  set_state_action_eligibility self state_action_pair
    new_state_action_eligibility.

(** The body of the [for action in possible_actions] loop of
    [get_proposed_action], carrying [best_action],
    [best_state_action_value] and the object. *)
Fixpoint argmax_loop (self : t) (state : list Z) (possible_actions : list Z)
    (best_action : list Z) (best_state_action_value : ereal)
  : list Z * ereal * t :=
  match possible_actions with
  | [] => (best_action, best_state_action_value, self)
  | action :: rest =>
      let state_action_pair := state ++ [action] in
      let '(state_action_value, self) :=
        get_state_action_value self state_action_pair in
      if gt_e state_action_value best_state_action_value then
        argmax_loop self state rest [action] (Fin state_action_value)
      else if eq_e best_state_action_value state_action_value then
        argmax_loop self state rest (best_action ++ [action])
          best_state_action_value
      else
        argmax_loop self state rest best_action best_state_action_value
  end.

(** [k] is the number drawn by the one [random.choice] the call makes. *)
Definition get_proposed_action (self : t) (do_argmax : bool)
    (state : list Z) (possible_actions : list Z) (k : nat)
  : result Z * t :=
  if negb do_argmax then (choice possible_actions k, self)
  else
    let '(best_action, _, self) :=
      argmax_loop self state possible_actions [] NegInf in
    (choice best_action k, self).

(** The state-action value and the eligibility a lookup would return. *)
Definition value (self : t) (state_action_pair : list Z) : R :=
  peek (policy self) state_action_pair.

Definition eligibility (self : t) (state_action_pair : list Z) : R :=
  peek (state_action_eligibility self) state_action_pair.

End Actor.

(** ** actor.py on binary64 values

    The eligibility table and its update rule once more, with Python's
    [float] as the binary64 numbers they are: [*] is the rounding
    multiplication of IEEE 754, and the 0 a [defaultdict(lambda: 0)] hands
    out enters a float product as [+0.0]. *)

Module ActorBinary64.
Import PrimFloat.

Record t : Type := mk {
  policy : gmap (list Z) float;
  state_action_eligibility : gmap (list Z) float;
  lrate : float;
  drate : float;
  trace_decay : float
}.

Definition with_eligibility (self : t) (e : gmap (list Z) float) : t :=
  mk (policy self) e (lrate self) (drate self) (trace_decay self).

Definition defaultdict_getitem (d : gmap (list Z) float) (k : list Z)
  : float * gmap (list Z) float :=
  match d !! k with
  | Some v => (v, d)
  | None => (0%float, <[k := 0%float]> d)
  end.

Definition get_state_action_eligibility (self : t) (state_action_pair : list Z)
  : float * t :=
  let '(v, d) :=
    defaultdict_getitem (state_action_eligibility self) state_action_pair in
  (v, with_eligibility self d).

Definition set_state_action_eligibility (self : t)
    (state_action_pair : list Z) (value : float) : t :=
  with_eligibility self
    (<[state_action_pair := value]> (state_action_eligibility self)).

Definition update_state_action_eligibility (self : t)
    (state_action_pair : list Z) : t :=
  let '(eligibility, self) :=
    get_state_action_eligibility self state_action_pair in
  let new_state_action_eligibility :=
    (drate self * trace_decay self * eligibility)%float in
  set_state_action_eligibility self state_action_pair
    new_state_action_eligibility.

(** The eligibility a lookup would return. *)
Definition eligibility (self : t) (state_action_pair : list Z) : float :=
  default 0%float (state_action_eligibility self !! state_action_pair).

(** The sign bit of a float, [None] for a NaN. *)
Definition sign_bit (x : float) : option bool :=
  match FloatOps.Prim2SF x with
  | SpecFloat.S754_nan => None
  | SpecFloat.S754_zero s | SpecFloat.S754_infinity s
  | SpecFloat.S754_finite s _ _ => Some s
  end.

End ActorBinary64.

(** ** gambler.py *)

Module Gambler.
Import Py.

Record t : Type := mk {
  max_coins : Z;
  min_bet : Z;
  state : Z;
  win_prob : R;
  current_step : Z;
  max_steps : Z;
  failed : bool;
  history : list Z;
  historic_game_length : list Z;
  best_history : list Z;
  (** [None] is [float('inf')]. *)
  best_game_length : option Z;
  possible_actions : list Z
}.

Definition with_state (self : t) (s : Z) : t :=
  mk (max_coins self) (min_bet self) s (win_prob self) (current_step self)
     (max_steps self) (failed self) (history self)
     (historic_game_length self) (best_history self) (best_game_length self)
     (possible_actions self).

Definition with_current_step (self : t) (n : Z) : t :=
  mk (max_coins self) (min_bet self) (state self) (win_prob self) n
     (max_steps self) (failed self) (history self)
     (historic_game_length self) (best_history self) (best_game_length self)
     (possible_actions self).

Definition with_failed (self : t) (b : bool) : t :=
  mk (max_coins self) (min_bet self) (state self) (win_prob self)
     (current_step self) (max_steps self) b (history self)
     (historic_game_length self) (best_history self) (best_game_length self)
     (possible_actions self).

Definition with_history (self : t) (h : list Z) : t :=
  mk (max_coins self) (min_bet self) (state self) (win_prob self)
     (current_step self) (max_steps self) (failed self) h
     (historic_game_length self) (best_history self) (best_game_length self)
     (possible_actions self).

(** [oh_state = [0] * (max_coins + 1); oh_state[state] = 1]: a negative
    index counts from the end, an index outside the list raises. *)
Definition get_current_state (self : t) : result (list Z) :=
  let n := (max_coins self + 1)%Z in
  let oh_state := replicate (Z.to_nat n) 0%Z in
  let s := state self in
  if decide (0 <= s < n)%Z then Ret (<[Z.to_nat s := 1%Z]> oh_state)
  else if decide (- n <= s < 0)%Z then
    Ret (<[Z.to_nat (n + s) := 1%Z]> oh_state)
  else Raise IndexError.

(** [k] is the number behind [randint(1, 99)]. *)
Definition produce_initial_state (self : t) (k : Z) : result (list Z) * t :=
  let self := with_current_step self 0 in
  let self := with_state self (randint 1 99 k) in
  let self := with_failed self false in
  let self := with_history self [state self] in
  (get_current_state self, self).

Definition init (win_prob : R) (max_steps : Z) (k : Z) : t :=
  snd (produce_initial_state
         (mk 100 1 0 win_prob 0 max_steps false [] [] [] None []) k).

Definition action_is_legal (self : t) (action : Z) : bool :=
  let dist_to_win := (max_coins self - state self)%Z in
  let dist_to_lose := state self in
  let max_bet := Z.min dist_to_lose dist_to_win in
  (min_bet self <=? action)%Z && (action <=? max_bet)%Z.

(** [u] is the value of the one call of [random()]. *)
Definition get_child_state (self : t) (action : Z) (u : R) : Z :=
  let state := state self in
  if lt u (win_prob self) then (state + action)%Z else (state - action)%Z.

(** [self.current_step += 1] comes before the legality check, so the object
    that goes with a raised exception already has the new step count.
    [random()] is only called on the legal path. *)
Definition update (self : t) (action : Z) (u : R) : result Z * t :=
  let self := with_current_step self (current_step self + 1) in
  if negb (action_is_legal self action) then
    (Raise (Exception "Illegal action"), self)
  else
    let old_state := state self in
    let self := with_state self (get_child_state self action u) in
    let self := with_history self (history self ++ [state self]) in
    let self :=
      if negb (failed self) then
        if (max_steps self <=? current_step self)%Z || (state self =? 0)%Z
        then with_failed self true else self
      else self in
    let reward := (state self - old_state)%Z in
    (Ret reward, self).

Definition is_current_state_final_state (self : t) : bool :=
  (state self =? max_coins self)%Z.

Definition is_current_state_failed_state (self : t) : bool :=
  failed self.

(** [state] is the optional one-hot argument: [None] reads the object's own
    coin count, a vector is decoded with [state.index(1)]. *)
Definition get_legal_actions (self : t) (state : option (list Z))
  : result (list Z) :=
  state ← match state with
          | None => Ret (Gambler.state self)
          | Some v => index v 1
          end;
  let dist_to_win := (max_coins self - state)%Z in
  let dist_to_lose := state in
  let max_bet := Z.min dist_to_lose dist_to_win in
  Ret ([min_bet self] ++ range (min_bet self + 1) (max_bet + 1)).

Definition store_game_length (self : t) : t :=
  let better :=
    match best_game_length self with
    | None => true
    | Some b => (current_step self <? b)%Z
    end in
  let '(bh, bl) :=
    if better then (history self, Some (current_step self))
    else (best_history self, best_game_length self) in
  mk (max_coins self) (min_bet self) (state self) (win_prob self)
     (current_step self) (max_steps self) (failed self) (history self)
     (historic_game_length self ++ [current_step self]) bh bl
     (possible_actions self).

Definition get_state_length (self : t) : result Z :=
  v ← get_current_state self; Ret (Z.of_nat (length v)).

(** An episode as the world sees it: [produce_initial_state], then calls
    of [update], each with its action and its random number.  A call that
    raises leaves the object it had reached. *)
Definition run (self : t) (calls : list (Z * R)) : t :=
  foldl (fun g c => snd (update g c.1 c.2)) self calls.

End Gambler.

(** ** pole_balancing.py *)

Module PoleBalancing.
Import Py.
Local Open Scope R_scope.

Record t : Type := mk {
  length : R;
  mass_p : R;
  gravity : R;
  tau : R;
  mass_c : R;
  force : R;
  max_angle : R;
  max_x_pos : R;
  steps : Z;
  angle : R;
  angle_vel : R;
  x_pos : R;
  x_vel : R;
  current_step : Z;
  balancing_failed : bool;
  cart_exited : bool;
  historic_angle : list R;
  best_history : list R;
  (** [None] is [float('-inf')]. *)
  best_game_length : option Z;
  historic_game_length : list Z
}.

(** The assignments of [update] and [produce_initial_state]: the constants
    stay, the state parameters are replaced. *)
Definition with_vars (self : t) (x_pos x_vel angle angle_vel : R)
    (current_step : Z) (balancing_failed cart_exited : bool)
    (historic_angle : list R) : t :=
  mk (length self) (mass_p self) (gravity self) (tau self) (mass_c self)
     (force self) (max_angle self) (max_x_pos self) (steps self)
     angle angle_vel x_pos x_vel current_step balancing_failed cart_exited
     historic_angle (best_history self) (best_game_length self)
     (historic_game_length self).

(** [np.sign] and the builtin [round] (halves go to the even integer). *)
Definition sign (x : R) : Z :=
  if lt x 0 then (-1)%Z else if gt x 0 then 1%Z else 0%Z.

Definition round (x : R) : Z :=
  let f := Int_part x in
  let d := (x - IZR f)%R in
  if lt d (1 / 2) then f
  else if gt d (1 / 2) then (f + 1)%Z
  else if Z.even f then f else (f + 1)%Z.

(** The [for i, val in enumerate(range(-abs_max, abs_max + 1))] loop of
    [one_hot_variable] from position [i] on: the first position whose value
    is at least [rounded_var], if there is one. *)
Fixpoint first_bucket (rounded_var : Z) (vals : list Z) (i : nat)
  : option nat :=
  match vals with
  | [] => None
  | val :: vals' =>
      if (rounded_var <=? val)%Z then Some i
      else first_bucket rounded_var vals' (S i)
  end.

(** [abs_max] is not negative: the code passes 1 and 3. *)
Definition one_hot_variable (rounded_var abs_max : Z) : list Z :=
  let n := Z.to_nat (abs_max * 2 + 1) in
  let vector := replicate n 0%Z in
  match first_bucket rounded_var (range (- abs_max) (abs_max + 1)) 0 with
  | Some i => <[i := 1%Z]> vector
  | None => <[(n - 1)%nat := 1%Z]> vector
  end.

Definition one_hot_state (rounded_state : Z * Z * Z * Z) : list Z :=
  let '(r0, r1, r2, r3) := rounded_state in
  let x_pos_oh := one_hot_variable r0 1 in
  let x_vel_oh := one_hot_variable r1 3 in
  let angle_oh := one_hot_variable r2 1 in
  let angle_vel_oh := one_hot_variable r3 3 in
  x_pos_oh ++ x_vel_oh ++ angle_oh ++ angle_vel_oh.

Definition round_state (state : R * R * R * R) : list Z :=
  let '(s0, s1, s2, s3) := state in
  one_hot_state (sign s0, round s1, sign s2, round s3).

Definition update_angle_acc (self : t) (bb_force : R) : R :=
  let numerator_fraction :=
    (cos (angle self) *
       (- bb_force - mass_p self * length self *
          (angle_vel self ^ 2) * sin (angle self))) /
    (mass_p self + mass_c self) in
  let numerator := gravity self * sin (angle self) + numerator_fraction in
  let denominator :=
    length self * (4 / 3 - (mass_p self * (cos (angle self) ^ 2)) /
                             (mass_p self + mass_c self)) in
  numerator / denominator.

Definition update_x_acc (self : t) (bb_force angle_acc : R) : R :=
  let numerator :=
    bb_force + mass_p self * length self *
      ((angle_vel self ^ 2) * sin (angle self) -
       angle_acc * cos (angle self)) in
  let denominator := mass_p self + mass_c self in
  numerator / denominator.

(** [[-self.force, self.force][action]]. *)
Definition bb_force (self : t) (action : bool) : R :=
  if action then force self else - force self.

(** [get_child_state(action)], with [rounded] left at its default. *)
Definition get_child_state (self : t) (action : bool) : R * R * R * R :=
  let bb_force := bb_force self action in
  let angle_acc := update_angle_acc self bb_force in
  let x_acc := update_x_acc self bb_force angle_acc in
  let x_pos := x_pos self + tau self * x_vel self in
  let x_vel := x_vel self + tau self * x_acc in
  let angle := angle self + tau self * angle_vel self in
  let angle_vel := angle_vel self + tau self * angle_acc in
  (x_pos, x_vel, angle, angle_vel).

(** [get_child_state(action, rounded=True)]. *)
Definition get_child_state_rounded (self : t) (action : bool) : list Z :=
  round_state (get_child_state self action).

Definition get_current_state (self : t) : list Z :=
  round_state (x_pos self, x_vel self, angle self, angle_vel self).

Definition is_current_state_final_state (self : t) : bool :=
  (steps self <=? current_step self)%Z
  && negb (cart_exited self) && negb (balancing_failed self).

Definition is_current_state_failed_state (self : t) : bool :=
  cart_exited self || balancing_failed self.

(** [u] is the [random()] behind [uniform(-max_angle, max_angle)]. *)
Definition produce_initial_state (self : t) (u : R) : list Z * t :=
  let angle := uniform (- max_angle self) (max_angle self) u in
  let self := with_vars self 0 0 angle 0 0 false false [angle] in
  (get_current_state self, self).

Definition init (length mass_p gravity tau : R) (max_steps : Z) (u : R) : t :=
  snd (produce_initial_state
         (mk length mass_p gravity tau 1 10 0.21 2.4 max_steps
             0 0 0 0 0 false false [] [] None []) u).

Definition update (self : t) (action : bool) : Z * t :=
  let current_step := (current_step self + 1)%Z in
  let '(x_pos, x_vel, angle, angle_vel) := get_child_state self action in
  let historic_angle := historic_angle self ++ [angle] in
  let balancing_failed :=
    if negb (balancing_failed self) then
      if ge (Rabs angle) (max_angle self) then true
      else balancing_failed self
    else balancing_failed self in
  let cart_exited :=
    if negb (cart_exited self) then
      if ge (Rabs x_pos) (max_x_pos self) then true else cart_exited self
    else cart_exited self in
  let self := with_vars self x_pos x_vel angle angle_vel current_step
                balancing_failed cart_exited historic_angle in
  if is_current_state_failed_state self then ((-1000)%Z, self)
  else (1%Z, self).

Definition get_legal_actions (self : t) (state : option (list Z))
  : bool * bool :=
  (false, true).

Definition store_game_length (self : t) : t :=
  let better :=
    match best_game_length self with
    | None => true
    | Some b => (b <? current_step self)%Z
    end in
  let '(bh, bl) :=
    if better then (historic_angle self, Some (current_step self))
    else (best_history self, best_game_length self) in
  mk (length self) (mass_p self) (gravity self) (tau self) (mass_c self)
     (force self) (max_angle self) (max_x_pos self) (steps self)
     (angle self) (angle_vel self) (x_pos self) (x_vel self)
     (current_step self) (balancing_failed self) (cart_exited self)
     (historic_angle self) bh bl
     (historic_game_length self ++ [current_step self]).

Definition get_state_length (self : t) : Z :=
  Z.of_nat (List.length (get_current_state self)).

(** An episode as the world sees it: the calls of [update] that follow
    [produce_initial_state]. *)
Definition run (self : t) (actions : list bool) : t :=
  foldl (fun w a => snd (update w a)) self actions.

End PoleBalancing.

(** * Properties *)

(** ** The runtime pieces *)

Module PyFacts.
Import Py.
Local Open Scope R_scope.

Lemma gt_true x y : gt x y = true <-> x > y.
Proof. unfold gt. destruct (Rgt_dec x y); split; (done || lra). Qed.

Lemma ge_true x y : ge x y = true <-> x >= y.
Proof. unfold ge. destruct (Rge_dec x y); split; (done || lra). Qed.

Lemma lt_true x y : lt x y = true <-> x < y.
Proof. unfold lt. destruct (Rlt_dec x y); split; (done || lra). Qed.

Lemma lt_false x y : lt x y = false <-> ~ x < y.
Proof. unfold lt. destruct (Rlt_dec x y); split; (done || lra). Qed.

Lemma eq_true x y : eq x y = true <-> x = y.
Proof. unfold eq. destruct (Req_dec_T x y); split; (done || lra). Qed.

Lemma getitem_value d k : (defaultdict_getitem d k).1 = peek d k.
Proof. unfold defaultdict_getitem, peek. by destruct (d !! k). Qed.

Lemma getitem_peek d k k' : peek (defaultdict_getitem d k).2 k' = peek d k'.
Proof.
  unfold defaultdict_getitem, peek.
  destruct (d !! k) eqn:Hk; [done|]. simpl.
  destruct (decide (k = k')) as [<-|Hne].
  - by rewrite lookup_insert_eq, Hk.
  - by rewrite lookup_insert_ne.
Qed.

Lemma filter_none {A} (P : A -> Prop) `{!forall x, Decision (P x)} (l : list A) :
  Forall (fun x => ~ P x) l -> filter P l = [].
Proof.
  induction 1 as [|x l Hx _ IH]; [done|].
  by rewrite filter_cons_False.
Qed.

Lemma filter_ext_elem {A} (P Q : A -> Prop) `{!forall x, Decision (P x)}
    `{!forall x, Decision (Q x)} (l : list A) :
  Forall (fun x => P x <-> Q x) l -> filter P l = filter Q l.
Proof.
  induction 1 as [|x l Hx _ IH]; [done|].
  rewrite !filter_cons, IH.
  destruct (decide (P x)), (decide (Q x)); tauto.
Qed.

Lemma choice_nil {A} (k : nat) : choice (@nil A) k = Raise IndexError.
Proof. done. Qed.

Lemma choice_elem {A} (l : list A) k :
  l <> [] -> exists a, choice l k = Ret a /\ a ∈ l.
Proof.
  intros Hl. unfold choice.
  assert (k `mod` length l < length l)%nat as Hlt.
  { apply Nat.mod_upper_bound. by destruct l. }
  destruct (lookup_lt_is_Some_2 l _ Hlt) as [a Ha].
  rewrite Ha. exists a. split; [done|]. by eapply list_elem_of_lookup_2.
Qed.

Lemma choice_reaches {A} (l : list A) a :
  a ∈ l -> exists k, choice l k = Ret a.
Proof.
  intros [i Hi]%list_elem_of_lookup_1. exists i. unfold choice.
  rewrite Nat.mod_small; [by rewrite Hi|]. by eapply lookup_lt_Some.
Qed.

Lemma choice_ret_elem {A} (l : list A) k a : choice l k = Ret a -> a ∈ l.
Proof.
  unfold choice. destruct (l !! _) eqn:H; [|done].
  intros [= <-]. by eapply list_elem_of_lookup_2.
Qed.

End PyFacts.

(** ** The Actor *)

Module ActorFacts.
Import Py PyFacts Actor.
Local Open Scope R_scope.

#[local] Instance Rle_decision (x y : R) : Decision (x <= y) := Rle_dec x y.
#[local] Instance Req_decision : EqDecision R := Req_dec_T.

(** The value of action [a] in [state] is at least the value of every
    action of [possible_actions]. *)
Definition is_maximiser (self : t) (state possible_actions : list Z)
    (a : Z) : Prop :=
  Forall (fun b => value self (state ++ [b]) <= value self (state ++ [a]))
         possible_actions.

#[local] Instance is_maximiser_dec self state possible_actions a :
  Decision (is_maximiser self state possible_actions a).
Proof. unfold is_maximiser. apply _. Defined.

(** The actions of [possible_actions] whose value is maximal, in the order
    and with the repetitions of [possible_actions]. *)
Definition tied_maximisers (self : t) (state possible_actions : list Z)
  : list Z :=
  filter (is_maximiser self state possible_actions) possible_actions.

(** The eligibility of [pair] after [n] calls of
    [update_state_action_eligibility]. *)
Definition decayed (self : t) (pair : list Z) (n : nat) : t :=
  Nat.iter n (fun a => update_state_action_eligibility a pair) self.

(** The loop of [get_proposed_action] on the values alone. *)
Fixpoint argmax_values (q : Z -> R) (possible_actions best_action : list Z)
    (best : ereal) : list Z * ereal :=
  match possible_actions with
  | [] => (best_action, best)
  | action :: rest =>
      if gt_e (q action) best then argmax_values q rest [action] (Fin (q action))
      else if eq_e best (q action) then
        argmax_values q rest (best_action ++ [action]) best
      else argmax_values q rest best_action best
  end.

(** What the loop has established after the actions [seen]. *)
Definition argmax_inv (q : Z -> R) (seen best_action : list Z)
    (best : ereal) : Prop :=
  match best with
  | NegInf => seen = [] /\ best_action = []
  | Fin m =>
      best_action = filter (fun a => q a = m) seen /\ best_action <> [] /\
      Forall (fun b => q b <= m) seen
  end.

(** The tables of the example of the specification: in state [(1, 0)] the
    actions A = 0 and B = 1 have value 1.0 and C = 2 has value 0.5; the
    pair [(1, 0, 0)] has eligibility 1. *)
Definition abc : t :=
  mk (<[ [1; 0; 0]%Z := 1 ]>
        (<[ [1; 0; 1]%Z := 1 ]> (<[ [1; 0; 2]%Z := 0.5 ]> ∅)))
     (<[ [1; 0; 0]%Z := 1 ]> ∅) 0.1 0.9 0.5.

Lemma get_value_fst self p : (get_state_action_value self p).1 = value self p.
Proof.
  unfold get_state_action_value, value.
  rewrite <- getitem_value. by destruct (defaultdict_getitem _ _).
Qed.

Lemma get_value_snd self p p' :
  value (get_state_action_value self p).2 p' = value self p'.
Proof.
  unfold get_state_action_value, value.
  rewrite <- (getitem_peek (policy self) p p').
  by destruct (defaultdict_getitem _ _).
Qed.

Lemma get_value_params self p :
  let self' := (get_state_action_value self p).2 in
  state_action_eligibility self' = state_action_eligibility self /\
  lrate self' = lrate self /\ drate self' = drate self /\
  trace_decay self' = trace_decay self.
Proof.
  unfold get_state_action_value. by destruct (defaultdict_getitem _ _).
Qed.

Lemma get_eligibility_fst self p :
  (get_state_action_eligibility self p).1 = eligibility self p.
Proof.
  unfold get_state_action_eligibility, eligibility.
  rewrite <- getitem_value. by destruct (defaultdict_getitem _ _).
Qed.

Lemma get_eligibility_params self p :
  let self' := (get_state_action_eligibility self p).2 in
  policy self' = policy self /\
  lrate self' = lrate self /\ drate self' = drate self /\
  trace_decay self' = trace_decay self.
Proof.
  unfold get_state_action_eligibility. by destruct (defaultdict_getitem _ _).
Qed.

Lemma update_eligibility_step self p :
  let self' := update_state_action_eligibility self p in
  eligibility self' p = drate self * trace_decay self * eligibility self p /\
  drate self' = drate self /\ trace_decay self' = trace_decay self.
Proof.
  unfold update_state_action_eligibility.
  pose proof (get_eligibility_fst self p) as Hv.
  pose proof (get_eligibility_params self p) as (_ & _ & Hd & Ht).
  destruct (get_state_action_eligibility self p) as [e self1].
  simpl in *. subst e. unfold eligibility, peek. simpl.
  rewrite lookup_insert_eq. simpl. by rewrite Hd, Ht.
Qed.

Lemma decayed_params self p n :
  drate (decayed self p n) = drate self /\
  trace_decay (decayed self p n) = trace_decay self.
Proof.
  induction n as [|n [IHd IHt]]; [done|].
  unfold decayed in *. simpl.
  pose proof (update_eligibility_step
                (Nat.iter n (fun a => update_state_action_eligibility a p) self)
                p) as (_ & Hd & Ht).
  simpl in *. by rewrite Hd, Ht.
Qed.

Lemma decayed_S self p n :
  eligibility (decayed self p (S n)) p =
  drate self * trace_decay self * eligibility (decayed self p n) p.
Proof.
  pose proof (decayed_params self p n) as [Hd Ht].
  pose proof (update_eligibility_step (decayed self p n) p) as (He & _ & _).
  simpl in He. unfold decayed in *. simpl. by rewrite He, Hd, Ht.
Qed.

Lemma decayed_pow self p n :
  eligibility (decayed self p n) p =
  (drate self * trace_decay self) ^ n * eligibility self p.
Proof.
  induction n as [|n IH]; [simpl; unfold decayed; simpl; lra|].
  rewrite decayed_S, IH. simpl. lra.
Qed.

Lemma argmax_values_ext q q' acts : (forall a, q a = q' a) ->
  forall best_action best,
  argmax_values q acts best_action best =
  argmax_values q' acts best_action best.
Proof.
  intros Hq. induction acts as [|a acts IH]; intros ba b; [done|].
  simpl. rewrite <- !Hq.
  destruct (gt_e _ _); [apply IH|]. destruct (eq_e _ _); apply IH.
Qed.

Lemma argmax_loop_values state acts : forall self best_action best,
  let q := fun a => value self (state ++ [a]) in
  let '(ba, b, self') := argmax_loop self state acts best_action best in
  (ba, b) = argmax_values q acts best_action best /\
  forall p, value self' p = value self p.
Proof.
  induction acts as [|a acts IH]; intros self best_action best; simpl.
  { done. }
  pose proof (get_value_fst self (state ++ [a])) as Hv.
  pose proof (get_value_snd self (state ++ [a])) as Hs.
  destruct (get_state_action_value self (state ++ [a])) as [v self1].
  simpl in Hv, Hs. subst v.
  assert (forall ba b,
    let '(ba', b', self') := argmax_loop self1 state acts ba b in
    (ba', b') =
      argmax_values (fun a0 => value self (state ++ [a0])) acts ba b /\
    forall p, value self' p = value self p) as Hrec.
  { intros ba b. specialize (IH self1 ba b). simpl in IH.
    destruct (argmax_loop self1 state acts ba b) as [[ba' b'] self'].
    destruct IH as [IH1 IH2]. split.
    - rewrite IH1. apply argmax_values_ext. intros c. apply Hs.
    - intros p. by rewrite IH2, Hs. }
  destruct (gt_e _ _); [apply Hrec|]. destruct (eq_e _ _); apply Hrec.
Qed.

Lemma argmax_values_inv q acts : forall seen best_action best,
  argmax_inv q seen best_action best ->
  let '(ba, b) := argmax_values q acts best_action best in
  argmax_inv q (seen ++ acts) ba b.
Proof.
  induction acts as [|a acts IH]; intros seen best_action best Hinv; simpl.
  { by rewrite app_nil_r. }
  replace (seen ++ a :: acts) with ((seen ++ [a]) ++ acts)
    by (by rewrite <- app_assoc).
  destruct best as [|m]; simpl in *.
  - destruct Hinv as [-> ->]. apply IH. simpl.
    rewrite filter_cons_True by done. rewrite filter_nil.
    split; [done|]. split; [done|]. constructor; [lra|constructor].
  - destruct Hinv as (Hba & Hne & Hall).
    destruct (gt (q a) m) eqn:Hgt.
    + apply gt_true in Hgt. apply IH. simpl.
      rewrite filter_app, filter_cons_True by done. rewrite filter_nil.
      split; [|split; [done|]].
      * replace (filter (fun a0 => q a0 = q a) seen) with (@nil Z); [done|].
        symmetry. apply filter_none.
        eapply Forall_impl; [exact Hall|]. simpl. intros b Hb Heq. lra.
      * apply Forall_app. split; [|constructor; [lra|constructor]].
        eapply Forall_impl; [exact Hall|]. simpl. intros; lra.
    + assert (~ q a > m) as Hle.
      { intros H. apply gt_true in H. congruence. }
      destruct (eq m (q a)) eqn:Heq.
      * apply eq_true in Heq. apply IH. simpl.
        rewrite filter_app, filter_cons_True by done. rewrite filter_nil.
        split; [by rewrite Hba|]. split; [by destruct best_action|].
        apply Forall_app. split; [done|]. constructor; [lra|constructor].
      * assert (q a <> m) as Hneq.
        { intros H. assert (eq m (q a) = true) by (by apply eq_true).
          congruence. }
        apply IH. simpl.
        rewrite filter_app, filter_cons_False by done. rewrite filter_nil.
        rewrite app_nil_r. split; [done|]. split; [done|].
        apply Forall_app. split; [done|]. constructor; [lra|constructor].
Qed.

(** C1.  [update_state_action_value(pair, td_error)] stores for [pair] the
    value [old_value + lrate * td_error * eligibility(pair)], where
    [old_value] and [eligibility(pair)] are what the policy and eligibility
    tables hold for [pair] before the call, 0 when the pair is absent. *)
Theorem update_state_action_value_stores (self : t) (pair : list Z)
    (td_error : R) :
  let self' := update_state_action_value self pair td_error in
  policy self' !! pair =
    Some (value self pair + lrate self * td_error * eligibility self pair) /\
  value self' pair =
    value self pair + lrate self * td_error * eligibility self pair.
Proof.
  unfold update_state_action_value.
  pose proof (get_value_fst self pair) as Hv.
  pose proof (get_value_params self pair) as (He & Hl & _ & _).
  destruct (get_state_action_value self pair) as [v self1].
  simpl in Hv, He, Hl. subst v.
  pose proof (get_eligibility_fst self1 pair) as He1.
  pose proof (get_eligibility_params self1 pair) as (_ & Hl1 & _ & _).
  destruct (get_state_action_eligibility self1 pair) as [e self2].
  simpl in He1, Hl1. subst e.
  assert (eligibility self1 pair = eligibility self pair) as ->.
  { unfold eligibility. by rewrite He. }
  rewrite Hl1, Hl. unfold value at 3, peek. simpl.
  by rewrite lookup_insert_eq.
Qed.

(** In exact arithmetic each call of
    [update_state_action_eligibility(pair)] multiplies the eligibility of
    [pair] by [r = drate * trace_decay], so after [n] calls it is
    [r^n * e0]; when [0 < r < 1] and [e0] is not 0 the magnitude gets
    strictly smaller at every call, the eligibility keeps its sign and
    never becomes 0, and it tends to 0. *)
Lemma exact_eligibility_decay (self : t) (pair : list Z)
    (n : nat) :
  let r := drate self * trace_decay self in
  let e := fun i => eligibility (decayed self pair i) pair in
  e 0%nat = eligibility self pair /\
  e (S n) = r * e n /\
  e n = r ^ n * e 0%nat /\
  (0 < r < 1 -> e 0%nat <> 0 ->
   Rabs (e (S n)) < Rabs (e n) /\ e n <> 0 /\
   (0 < e 0%nat -> 0 < e n) /\ (e 0%nat < 0 -> e n < 0)) /\
  (0 < r < 1 -> forall eps, 0 < eps ->
   exists N, forall m, (N <= m)%nat -> Rabs (e m) < eps).
Proof.
  intros r e. subst e. cbv beta.
  split; [done|]. split; [apply decayed_S|]. split; [apply decayed_pow|].
  split.
  - intros Hr He0. rewrite decayed_S, decayed_pow. fold r.
    change (eligibility (decayed self pair 0) pair)
      with (eligibility self pair) in *.
    set (e0 := eligibility self pair) in *.
    assert (0 < r ^ n) as Hpow by (apply pow_lt; lra).
    assert (r ^ n * e0 <> 0) as Hne by (apply Rmult_integral_contrapositive; lra).
    split; [|split; [done|split]].
    + rewrite Rabs_mult. rewrite (Rabs_pos_eq r) by lra.
      pose proof (Rabs_pos_lt _ Hne). nra.
    + intros. nra.
    + intros. nra.
  - intros Hr eps Heps.
    set (e0 := eligibility self pair).
    destruct (pow_lt_1_zero r) with (y := eps / (Rabs e0 + 1)) as [N HN].
    { rewrite Rabs_pos_eq; lra. }
    { pose proof (Rabs_pos e0). apply Rdiv_lt_0_compat; lra. }
    exists N. intros m Hm. rewrite decayed_pow. fold r e0.
    rewrite Rabs_mult. specialize (HN m Hm).
    pose proof (Rabs_pos e0) as He0. pose proof (Rabs_pos (r ^ m)) as Hrm.
    assert (eps / (Rabs e0 + 1) * (Rabs e0 + 1) = eps) as Heq
      by (field; lra).
    nra.
Qed.

(** C3.  With [do_argmax] true and [possible_actions] not empty,
    [get_proposed_action] returns [random.choice] of the list of the
    actions whose value (the key is [state] followed by the action) is
    maximal among [possible_actions], kept in order: whatever is drawn, the
    result is an action of [possible_actions] of maximal value; every such
    action is the result of some draw; an action of smaller value never
    is; and the tied actions have one entry each in the list drawn from
    when [possible_actions] has no repetition. *)
Theorem get_proposed_action_argmax (self : t) (state possible_actions : list Z) :
  possible_actions <> [] ->
  let best := tied_maximisers self state possible_actions in
  let proposed := fun k =>
    (get_proposed_action self true state possible_actions k).1 in
  best <> [] /\
  (forall k, proposed k = choice best k) /\
  (forall k, exists a, proposed k = Ret a /\ a ∈ possible_actions /\
                       is_maximiser self state possible_actions a) /\
  (forall a, a ∈ possible_actions ->
             is_maximiser self state possible_actions a ->
             exists k, proposed k = Ret a) /\
  (forall a k, ~ is_maximiser self state possible_actions a ->
               proposed k <> Ret a) /\
  (NoDup possible_actions -> NoDup best).
Proof.
  intros Hne best proposed.
  set (q := fun a => value self (state ++ [a])).
  pose proof (argmax_loop_values state possible_actions self [] NegInf) as Hl.
  pose proof (argmax_values_inv q possible_actions [] [] NegInf) as Hinv.
  simpl in Hl. fold q in Hl.
  assert (forall k, proposed k =
            choice (argmax_values q possible_actions [] NegInf).1 k) as Hprop.
  { intros k. subst proposed. unfold get_proposed_action. simpl.
    destruct (argmax_loop self state possible_actions [] NegInf)
      as [[ba b] self'].
    destruct Hl as [<- _]. done. }
  destruct (argmax_values q possible_actions [] NegInf) as [ba b].
  simpl in Hinv, Hprop. specialize (Hinv (conj eq_refl eq_refl)).
  destruct b as [|m]; simpl in Hinv.
  { by destruct Hinv as [-> _]. }
  destruct Hinv as (Hba & Hbne & Hall).
  assert (exists a0, a0 ∈ possible_actions /\ q a0 = m) as (a0 & Ha0 & Hq0).
  { destruct ba as [|a0 ba]; [done|]. exists a0.
    assert (a0 ∈ filter (fun a => q a = m) possible_actions) as Hin
      by (rewrite <- Hba; left).
    by apply list_elem_of_filter in Hin as [? ?]. }
  assert (forall a, a ∈ possible_actions ->
            (is_maximiser self state possible_actions a <-> q a = m))
    as Hmax.
  { intros a Hin. unfold is_maximiser. rewrite Forall_forall.
    rewrite Forall_forall in Hall. unfold q in *. split.
    - intros Ha. specialize (Ha a0 Ha0). rewrite Hq0 in Ha.
      specialize (Hall a Hin). simpl in Hall. lra.
    - intros <- b Hb. apply (Hall b Hb). }
  assert (best = ba) as Hbest.
  { subst best. unfold tied_maximisers. rewrite Hba.
    apply filter_ext_elem. apply Forall_forall. intros a Hin.
    by apply Hmax. }
  assert (forall a, a ∈ best ->
            a ∈ possible_actions /\
            is_maximiser self state possible_actions a) as Hbest_in.
  { intros a Hin. unfold best, tied_maximisers in Hin.
    apply list_elem_of_filter in Hin. tauto. }
  split; [by rewrite Hbest|].
  split; [intros k; by rewrite Hprop, Hbest|].
  split.
  { intros k. destruct (choice_elem best k) as (a & Hc & Hin).
    { by rewrite Hbest. }
    exists a. rewrite Hprop, <- Hbest. split; [done|]. by apply Hbest_in. }
  split.
  { intros a Hin Ha. destruct (choice_reaches best a) as [k Hk].
    { unfold best, tied_maximisers. by apply list_elem_of_filter. }
    exists k. by rewrite Hprop, <- Hbest. }
  split.
  { intros a k Hnot Hk. rewrite Hprop, <- Hbest in Hk.
    apply choice_ret_elem in Hk. apply Hbest_in in Hk. tauto. }
  intros Hnd. by apply NoDup_filter.
Qed.

(** C9.  With an empty [possible_actions], [get_proposed_action] raises
    (the [IndexError] of [random.choice]) for both values of [do_argmax],
    whatever the state, the tables and the draw. *)
Theorem get_proposed_action_empty_raises (self : t) (do_argmax : bool)
    (state : list Z) (k : nat) :
  (get_proposed_action self do_argmax state [] k).1 = Raise IndexError.
Proof. by destruct do_argmax. Qed.


Lemma abc_values :
  value abc [1; 0; 0]%Z = 1 /\ value abc [1; 0; 1]%Z = 1 /\
  value abc [1; 0; 2]%Z = 0.5.
Proof. unfold value, peek, abc. simpl. by simplify_map_eq. Qed.

Lemma get_proposed_action_argmax_witness :
  let proposed := fun k =>
    (get_proposed_action abc true [1; 0]%Z [0; 1; 2]%Z k).1 in
  (exists k, proposed k = Ret 0%Z) /\ (exists k, proposed k = Ret 1%Z) /\
  (forall k, proposed k <> Ret 2%Z).
Proof.
  intros proposed.
  destruct (get_proposed_action_argmax abc [1; 0]%Z [0; 1; 2]%Z)
    as (_ & _ & _ & Hreach & Hnever & _); [done|].
  destruct abc_values as (HA & HB & HC).
  split; [|split].
  - apply Hreach; [left|]. unfold is_maximiser.
    repeat constructor; simpl; rewrite ?HA, ?HB, ?HC; lra.
  - apply Hreach; [right; left|]. unfold is_maximiser.
    repeat constructor; simpl; rewrite ?HA, ?HB, ?HC; lra.
  - intros k. apply Hnever. unfold is_maximiser.
    intros H. apply Forall_cons_1 in H as [H _]. simpl in H.
    rewrite HA, HC in H. lra.
Defined.

End ActorFacts.

(** ** The decay of the eligibility, on binary64 values and on reals *)

Module EligibilityFacts.
Import PrimFloat ActorBinary64.

(** Decimal literals stand for the nearest binary64 number, as in Python. *)
#[local] Set Warnings "-inexact-float".

(** The eligibility table after [n] calls of
    [update_state_action_eligibility(pair)]. *)
Definition decayed (self : t) (pair : list Z) (n : nat) : t :=
  Nat.iter n (fun a => update_state_action_eligibility a pair) self.

(** The decay sentence as the specification words it, read on the floats
    the code computes with: for [0 < r < 1] and a nonzero eligibility, the
    call after the first [n] makes the magnitude strictly smaller. *)
Definition strictly_decays (self : t) (pair : list Z) (n : nat) : Prop :=
  let r := (drate self * trace_decay self)%float in
  (0 <? r)%float = true -> (r <? 1)%float = true ->
  (eligibility self pair =? 0)%float = false ->
  (abs (eligibility (decayed self pair (S n)) pair) <?
   abs (eligibility (decayed self pair n) pair))%float = true.

(** An actor whose only eligibility is [e0], with the given rates. *)
Definition tracking (drate trace_decay e0 : float) : t :=
  mk ∅ (<[ [1; 0; 0]%Z := e0 ]> ∅) 0.5%float drate trace_decay.

(** The smallest positive binary64 number, [5e-324]. *)
Definition tiny : float := 0x1p-1074%float.

Lemma update_step self p :
  let self' := update_state_action_eligibility self p in
  eligibility self' p =
    (drate self * trace_decay self * eligibility self p)%float /\
  drate self' = drate self /\ trace_decay self' = trace_decay self.
Proof.
  unfold update_state_action_eligibility, get_state_action_eligibility,
    defaultdict_getitem, eligibility.
  destruct (state_action_eligibility self !! p) eqn:Hp; simpl;
    by rewrite lookup_insert_eq.
Qed.

Lemma decayed_rates self p n :
  drate (decayed self p n) = drate self /\
  trace_decay (decayed self p n) = trace_decay self.
Proof.
  induction n as [|n [IHd IHt]]; [done|].
  destruct (update_step (decayed self p n) p) as (_ & Hd & Ht).
  cbv zeta in Hd, Ht.
  change (decayed self p (S n))
    with (update_state_action_eligibility (decayed self p n) p).
  by rewrite Hd, Ht.
Qed.

Lemma decayed_step self p n :
  eligibility (decayed self p (S n)) p =
  (drate self * trace_decay self * eligibility (decayed self p n) p)%float.
Proof.
  destruct (decayed_rates self p n) as [Hd Ht].
  destruct (update_step (decayed self p n) p) as (He & _ & _).
  cbv zeta in He.
  change (decayed self p (S n))
    with (update_state_action_eligibility (decayed self p n) p).
  by rewrite He, Hd, Ht.
Qed.

Lemma mul_sign (x y : float) :
  match sign_bit (x * y)%float with
  | None => True
  | Some s => exists sx sy,
      sign_bit x = Some sx /\ sign_bit y = Some sy /\ s = xorb sx sy
  end.
Proof.
  unfold sign_bit. rewrite FloatAxioms.mul_spec.
  unfold FloatAxioms.SF64mul, SpecFloat.SFmul.
  destruct (FloatOps.Prim2SF x) as [sx|sx| |sx mx ex],
           (FloatOps.Prim2SF y) as [sy|sy| |sy my ey]; simpl; eauto.
  unfold SpecFloat.binary_round_aux.
  destruct (SpecFloat.shr_fexp _ _ _ _ _) as [m1 e1].
  destruct (SpecFloat.shr_fexp _ _ _ _ _) as [m2 e2].
  destruct (SpecFloat.shr_m m2); [eauto| |eauto].
  destruct (Z.leb _ _); eauto.
Qed.

Lemma decayed_sign self p s n :
  sign_bit (drate self * trace_decay self)%float = Some false ->
  sign_bit (eligibility self p) = Some s ->
  sign_bit (eligibility (decayed self p n) p) = Some s \/
  sign_bit (eligibility (decayed self p n) p) = None.
Proof.
  intros Hr He. induction n as [|n IH]; [by left|].
  rewrite decayed_step.
  pose proof (mul_sign (drate self * trace_decay self)
                (eligibility (decayed self p n) p)) as Hm.
  destruct (sign_bit (_ * eligibility (decayed self p n) p)) as [s'|];
    [|by right].
  destruct Hm as (sx & sy & Hsx & Hsy & ->). left.
  rewrite Hr in Hsx. injection Hsx as <-.
  destruct IH as [IH|IH]; rewrite IH in Hsy; [|done].
  by injection Hsy as <-.
Qed.

Lemma eligibility_stalls_in_binary64 :
  let p := [1; 0; 0]%Z in
  (eligibility (tracking 0.75 1 tiny) p = tiny /\
   eligibility (decayed (tracking 0.75 1 tiny) p 1) p = tiny /\
   ~ strictly_decays (tracking 0.75 1 tiny) p 0) /\
  (eligibility (decayed (tracking 0.5 1 tiny) p 1) p = 0%float /\
   ~ strictly_decays (tracking 0.5 1 tiny) p 1) /\
  (eligibility (decayed (tracking 0.9 0.05 1) p 241) p = 0%float /\
   ~ strictly_decays (tracking 0.9 0.05 1) p 241).
Proof.
  intros p.
  assert (forall a n,
    (0 <? drate a * trace_decay a)%float = true ->
    (drate a * trace_decay a <? 1)%float = true ->
    (eligibility a p =? 0)%float = false ->
    (abs (eligibility (decayed a p (S n)) p) <?
     abs (eligibility (decayed a p n) p))%float = false ->
    ~ strictly_decays a p n) as Hno.
  { intros a n H0 H1 He Hlt Hs. specialize (Hs H0 H1 He). congruence. }
  split; [|split].
  - split; [by vm_compute|]. split; [by vm_compute|].
    apply Hno; by vm_compute.
  - split; [by vm_compute|]. apply Hno; by vm_compute.
  - split; [by vm_compute|]. apply Hno; by vm_compute.
Qed.

(** C2, amended.  Each call of [update_state_action_eligibility(pair)]
    replaces the eligibility of [pair] by the binary64 product
    [(drate * trace_decay) * e], rounded as float multiplication rounds;
    as long as [drate * trace_decay] has a positive sign the eligibility
    never takes the sign opposite to the one it started with (it keeps its
    sign bit, also when it becomes a zero, unless it becomes a NaN).  In
    exact arithmetic, without rounding, each call multiplies by
    [r = drate * trace_decay], after [n] calls the eligibility is
    [r^n * e0], and for [0 < r < 1] and [e0] not 0 the magnitude strictly
    decreases at every call, the sign never changes, and the eligibility
    tends to 0 without reaching it. *)
Theorem eligibility_decay (b : t) (self : Actor.t) (pair : list Z)
    (n : nat) :
  let rb := (drate b * trace_decay b)%float in
  let eb := fun i => eligibility (decayed b pair i) pair in
  let r := (Actor.drate self * Actor.trace_decay self)%R in
  let e := fun i =>
    Actor.eligibility (ActorFacts.decayed self pair i) pair in
  (eb 0%nat = eligibility b pair /\
   eb (S n) = (rb * eb n)%float /\
   (forall s, sign_bit rb = Some false -> sign_bit (eb 0%nat) = Some s ->
      sign_bit (eb n) <> Some (negb s))) /\
  (e 0%nat = Actor.eligibility self pair /\
   e (S n) = (r * e n)%R /\
   e n = (r ^ n * e 0%nat)%R /\
   ((0 < r < 1)%R -> e 0%nat <> 0%R ->
    (Rabs (e (S n)) < Rabs (e n))%R /\ e n <> 0%R /\
    ((0 < e 0%nat)%R -> (0 < e n)%R) /\ ((e 0%nat < 0)%R -> (e n < 0)%R)) /\
   ((0 < r < 1)%R -> forall eps, (0 < eps)%R ->
    exists N, forall m, (N <= m)%nat -> (Rabs (e m) < eps)%R)).
Proof.
  intros rb eb r e. split.
  - split; [done|]. split; [apply decayed_step|].
    intros s Hr He Hopp.
    destruct (decayed_sign b pair s n Hr He) as [H|H];
      unfold eb in Hopp; rewrite H in Hopp; [|done].
    injection Hopp as Hs. by destruct s.
  - exact (ActorFacts.exact_eligibility_decay self pair n).
Qed.

Lemma eligibility_decay_witness :
  let p := [1; 0; 0]%Z in
  sign_bit (eligibility (decayed (tracking 0.5 1 tiny) p 3) p)
    <> Some true /\
  (Rabs (Actor.eligibility (ActorFacts.decayed ActorFacts.abc p 3) p) <
   Rabs (Actor.eligibility (ActorFacts.decayed ActorFacts.abc p 2) p))%R.
Proof.
  intros p.
  assert (Actor.eligibility (ActorFacts.decayed ActorFacts.abc p 0) p
          = 1%R) as He0.
  { unfold ActorFacts.decayed, Actor.eligibility, Py.peek, ActorFacts.abc.
    simpl. by simplify_map_eq. }
  assert (0 < Actor.drate ActorFacts.abc * Actor.trace_decay ActorFacts.abc
          < 1)%R as Hr by (simpl; lra).
  destruct (eligibility_decay (tracking 0.5 1 tiny) ActorFacts.abc p 3)
    as ((_ & _ & Hsign) & _).
  destruct (eligibility_decay (tracking 0.5 1 tiny) ActorFacts.abc p 2)
    as (_ & (_ & _ & _ & Hdec & _)).
  split.
  - apply (Hsign false); by vm_compute.
  - destruct (Hdec Hr) as (Hlt & _); [rewrite He0; lra|exact Hlt].
Defined.

End EligibilityFacts.

(** ** The Gambler world *)

Module GamblerFacts.
Import Py PyFacts Gambler.
Local Open Scope Z_scope.

(** "Integers in [1, min(s, max_coins - s)]", in increasing order. *)
Definition wagers (s max_coins : Z) : list Z :=
  seqZ 1 (Z.min s (max_coins - s)).

(** The constants that [__init__] fixes, and a coin count inside the table. *)
Definition well_formed (g : t) : Prop :=
  max_coins g = 100 /\ min_bet g = 1 /\ 0 <= state g <= 100.

(** The legal-action sentence as the specification words it: both
    operations describe [wagers]. *)
Definition legal_actions_as_specified (g : t) : Prop :=
  get_legal_actions g None = Ret (wagers (state g) (max_coins g)) /\
  forall a, action_is_legal g a = true <-> a ∈ wagers (state g) (max_coins g).

(** The object [update] leaves after a legal action. *)
Definition after_legal (g : t) (action : Z) (u : R) : t :=
  let s' := get_child_state g action u in
  let step := current_step g + 1 in
  mk (max_coins g) (min_bet g) s' (win_prob g) step (max_steps g)
     (failed g || ((max_steps g <=? step) || (s' =? 0)))
     (history g ++ [s']) (historic_game_length g) (best_history g)
     (best_game_length g) (possible_actions g).

(** A gambler with one coin left, after [Gambler(0.4, 300)] drew 1. *)
Definition last_coin : t := init 0.4 300 0.

(** The same gambler after wagering the coin and losing it. *)
Definition broke : t := run last_coin [(1, 0.9%R)].

(** [Gambler(0.4, max_steps=1)] starting with 50 coins: a lost wager of 1
    (the step limit is reached), then two won wagers, 49 and 2. *)
Definition late_winner_calls : list (Z * R) :=
  [(1, 0.9%R); (49, 0.1%R); (2, 0.1%R)].

Definition late_winner_start : t := init 0.4 1 49.

(** [Gambler(0.4, 300)] after [randint] drew 50. *)
Definition fifty : t := init 0.4 300 49.

Lemma elem_of_wagers a s mc : a ∈ wagers s mc <-> 1 <= a <= Z.min s (mc - s).
Proof. unfold wagers. rewrite elem_of_seqZ. lia. Qed.

Lemma action_is_legal_true g a :
  action_is_legal g a = true <->
  min_bet g <= a <= Z.min (state g) (max_coins g - state g).
Proof.
  unfold action_is_legal. rewrite andb_true_iff, !Z.leb_le. lia.
Qed.

Lemma action_is_legal_false g a :
  action_is_legal g a = false <->
  ~ min_bet g <= a <= Z.min (state g) (max_coins g - state g).
Proof. rewrite <- action_is_legal_true. by destruct (action_is_legal g a). Qed.

Lemma get_child_state_win g a u :
  (u < win_prob g)%R -> get_child_state g a u = state g + a.
Proof.
  intros H. unfold get_child_state. by apply lt_true in H as ->.
Qed.

Lemma get_child_state_lose g a u :
  ~ (u < win_prob g)%R -> get_child_state g a u = state g - a.
Proof.
  intros H. unfold get_child_state. by apply lt_false in H as ->.
Qed.

Lemma update_legal g a u :
  action_is_legal g a = true ->
  update g a u = (Ret (get_child_state g a u - state g), after_legal g a u).
Proof.
  intros Hl. unfold update, after_legal.
  change (action_is_legal (with_current_step g (current_step g + 1)) a)
    with (action_is_legal g a).
  rewrite Hl. simpl.
  change (get_child_state (with_current_step g (current_step g + 1)) a u)
    with (get_child_state g a u).
  unfold with_history, with_state, with_current_step, with_failed. simpl.
  destruct (failed g); simpl; [done|].
  by destruct (_ || _).
Qed.

Lemma update_win_fields g a u :
  min_bet g <= a <= Z.min (state g) (max_coins g - state g) ->
  (u < win_prob g)%R ->
  let g' := (update g a u).2 in
  state g' = state g + a /\ max_coins g' = max_coins g /\
  min_bet g' = min_bet g /\ win_prob g' = win_prob g /\
  (failed g = true -> failed g' = true).
Proof.
  intros Hl%action_is_legal_true Hu. rewrite update_legal by done. simpl.
  rewrite get_child_state_win by done. repeat split; try done.
  by intros ->.
Qed.

Lemma update_lose_fields g a u :
  min_bet g <= a <= Z.min (state g) (max_coins g - state g) ->
  ~ (u < win_prob g)%R ->
  let g' := (update g a u).2 in
  state g' = state g - a /\ max_coins g' = max_coins g /\
  min_bet g' = min_bet g /\ win_prob g' = win_prob g /\
  (max_steps g <= current_step g + 1 -> failed g' = true).
Proof.
  intros Hl%action_is_legal_true Hu. rewrite update_legal by done. simpl.
  rewrite get_child_state_lose by done. repeat split; try done.
  intros Hle%Z.leb_le. rewrite Hle. by destruct (failed g).
Qed.

Lemma update_illegal g a u :
  action_is_legal g a = false ->
  update g a u =
  (Raise (Exception "Illegal action"),
   with_current_step g (current_step g + 1)).
Proof.
  intros Hl. unfold update.
  change (action_is_legal (with_current_step g (current_step g + 1)) a)
    with (action_is_legal g a).
  by rewrite Hl.
Qed.

Lemma gambler_run_snoc g calls a u :
  run g (calls ++ [(a, u)]) = (update (run g calls) a u).2.
Proof. unfold run. by rewrite foldl_app. Qed.

Lemma run_cons g calls a u :
  run g ((a, u) :: calls) = run (update g a u).2 calls.
Proof. done. Qed.

Lemma init_well_formed wp ms k : well_formed (init wp ms k).
Proof.
  unfold well_formed, init, produce_initial_state, randint. simpl.
  change (99 - 1 + 1) with 99.
  pose proof (Z.mod_pos_bound k 99). lia.
Qed.

Lemma update_well_formed g a u :
  well_formed g -> well_formed (update g a u).2.
Proof.
  intros (Hm & Hb & Hs). destruct (action_is_legal g a) eqn:Hl.
  - rewrite update_legal by done. unfold well_formed. simpl.
    apply action_is_legal_true in Hl. unfold get_child_state.
    split; [done|]. split; [done|]. destruct (lt u (win_prob g)); lia.
  - by rewrite update_illegal.
Qed.


Lemma update_failed_sticky g a u :
  failed g = true -> failed (update g a u).2 = true.
Proof.
  intros Hf. destruct (action_is_legal g a) eqn:Hl.
  - rewrite update_legal by done. simpl. by rewrite Hf.
  - by rewrite update_illegal.
Qed.

Lemma run_failed_sticky calls : forall g,
  failed g = true -> failed (run g calls) = true.
Proof.
  induction calls as [|[a u] calls IH]; intros g Hg; [done|].
  rewrite run_cons. by apply IH, update_failed_sticky.
Qed.



Lemma index_one_hot (n k : nat) :
  (n < k)%nat -> index (<[n := 1]> (replicate k 0)) 1 = Ret (Z.of_nat n).
Proof.
  revert k. induction n as [|n IH]; intros k Hk.
  - destruct k; [lia|]. done.
  - destruct k; [lia|]. simpl. rewrite IH by lia. simpl.
    f_equal. lia.
Qed.

Lemma broke_state :
  state broke = 0 /\ max_coins broke = 100 /\ min_bet broke = 1.
Proof.
  unfold broke. rewrite run_cons, update_legal by done.
  unfold run, after_legal. cbn [foldl snd state max_coins min_bet].
  rewrite get_child_state_lose by (simpl; lra). done.
Qed.

Lemma get_legal_actions_None g :
  get_legal_actions g None =
  Ret (min_bet g ::
       seqZ (min_bet g + 1)
            (Z.min (state g) (max_coins g - state g) + 1 - (min_bet g + 1))).
Proof. done. Qed.

Lemma legal_actions_at_zero_coins :
  0 <= state broke <= max_coins broke /\ max_coins broke = 100 /\
  wagers (state broke) (max_coins broke) = [] /\
  get_legal_actions broke None = Ret [1] /\
  action_is_legal broke 1 = false /\
  ~ legal_actions_as_specified broke.
Proof.
  destruct broke_state as (Hs & Hm & Hb).
  assert (get_legal_actions broke None = Ret [1]) as Hget.
  { rewrite get_legal_actions_None, Hs, Hm, Hb. done. }
  rewrite Hs, Hm. split; [lia|]. split; [done|]. split; [done|].
  split; [done|]. split.
  - apply action_is_legal_false. rewrite Hs, Hm, Hb. lia.
  - intros [Hlist _]. rewrite Hget, Hs, Hm in Hlist. discriminate Hlist.
Qed.

(** C4, amended.  For a Gambler whose coin count [s] is in [0, 100] (with
    [max_coins = 100], [min_bet = 1]), [action_is_legal] accepts exactly
    the integers of [1, min(s, 100 - s)], so it rejects 0 and every wager
    above that bound; [get_legal_actions] returns exactly that list, in
    increasing order, when [1 <= s <= 99], and returns [[1]] at [s = 0] and
    [s = 100], where the interval is empty and no wager is legal.  Called
    with the one-hot encoding of the current state it returns the same
    list as without an argument. *)
Theorem legal_actions_spec (g : t) :
  well_formed g ->
  let s := state g in
  (forall a, action_is_legal g a = true <-> 1 <= a <= Z.min s (100 - s)) /\
  (forall a, action_is_legal g a = true <-> a ∈ wagers s 100) /\
  (1 <= s <= 99 -> get_legal_actions g None = Ret (wagers s 100)) /\
  (s = 0 \/ s = 100 ->
   get_legal_actions g None = Ret [1] /\ wagers s 100 = [] /\
   forall a, action_is_legal g a = false) /\
  (forall v, get_current_state g = Ret v ->
             get_legal_actions g (Some v) = get_legal_actions g None).
Proof.
  intros (Hm & Hb & Hs) s.
  assert (forall a, action_is_legal g a = true <->
                    1 <= a <= Z.min s (100 - s)) as Hlegal.
  { intros a. rewrite action_is_legal_true, Hm, Hb. done. }
  split; [exact Hlegal|].
  split; [intros a; by rewrite Hlegal, elem_of_wagers|].
  split; [|split].
  - intros Hin. rewrite get_legal_actions_None, Hm, Hb. fold s.
    unfold wagers. rewrite (seqZ_cons 1) by lia. do 3 f_equal. lia.
  - intros H0. rewrite get_legal_actions_None, Hm, Hb. fold s.
    assert (Z.min s (100 - s) = 0) as -> by lia.
    split; [done|]. split.
    + unfold wagers. by assert (Z.min s (100 - s) = 0) as -> by lia.
    + intros a. apply action_is_legal_false. rewrite Hm, Hb. fold s. lia.
  - intros v. unfold get_current_state. rewrite Hm. fold s.
    rewrite decide_True by lia.
    assert (Z.to_nat s < Z.to_nat (100 + 1))%nat as Hlt by lia.
    revert Hlt. generalize (Z.to_nat (100 + 1)). intros n Hlt [= <-].
    unfold get_legal_actions. rewrite index_one_hot by done.
    simpl. by rewrite Z2Nat.id by lia.
Qed.

Lemma legal_actions_spec_witness :
  get_legal_actions fifty None = Ret (seqZ 1 50) /\
  get_legal_actions last_coin None = Ret [1] /\
  action_is_legal fifty 0 = false /\ action_is_legal fifty 51 = false.
Proof.
  destruct (legal_actions_spec fifty (init_well_formed _ _ _))
    as (Hlegal & _ & Hlist & _).
  destruct (legal_actions_spec last_coin (init_well_formed _ _ _))
    as (_ & _ & Hone & _).
  change (state fifty) with 50 in *. change (state last_coin) with 1 in *.
  split; [apply Hlist; lia|]. split; [apply Hone; lia|].
  split.
  - destruct (action_is_legal fifty 0) eqn:H; [|done].
    apply Hlegal in H. lia.
  - destruct (action_is_legal fifty 51) eqn:H; [|done].
    apply Hlegal in H. lia.
Defined.

(** C8.  For a legal wager [a] with [c] coins, [update(a)] makes one call
    of [random()], whose value is [u]: when [u < win_prob] (an event of
    probability [win_prob] for the uniform [u] of [0, 1)) the coins become
    [c + a] and the reward is [+a], otherwise they become [c - a] and the
    reward is [-a]; either way the reward is the new coin count minus the
    old one. *)
Theorem update_reward_is_signed_change (g : t) (a : Z) (u : R) :
  action_is_legal g a = true ->
  let r := (update g a u).1 in
  let g' := (update g a u).2 in
  ((u < win_prob g)%R -> state g' = state g + a /\ r = Ret a) /\
  (~ (u < win_prob g)%R -> state g' = state g - a /\ r = Ret (- a)) /\
  r = Ret (state g' - state g).
Proof.
  intros Hl. rewrite update_legal by done. simpl.
  split; [|split; [|done]].
  - intros Hu. rewrite get_child_state_win by done.
    split; [done|]. f_equal. lia.
  - intros Hu. rewrite get_child_state_lose by done.
    split; [done|]. f_equal. lia.
Qed.

Lemma update_reward_is_signed_change_witness :
  state fifty = 50 /\
  state (update fifty 10 0.1%R).2 = 60 /\
  (update fifty 10 0.1%R).1 = Ret 10 /\
  state (update fifty 10 0.9%R).2 = 40 /\
  (update fifty 10 0.9%R).1 = Ret (-10).
Proof.
  split; [done|].
  destruct (update_reward_is_signed_change fifty 10 0.1%R eq_refl)
    as (Hwin & _ & _).
  destruct (update_reward_is_signed_change fifty 10 0.9%R eq_refl)
    as (_ & Hlose & _).
  destruct Hwin as [H1 H2]; [simpl; lra|].
  destruct Hlose as [H3 H4]; [simpl; lra|].
  by rewrite H1, H2, H3, H4.
Defined.

(** C10.  For an action that is not legal in the current state,
    [update(action)] raises, and the object it leaves differs from the one
    before the call in [current_step] alone, which is 1 higher: the coins,
    the failure flag and the history are as before. *)
Theorem update_illegal_action_raises (g : t) (a : Z) (u : R) :
  action_is_legal g a = false ->
  let r := (update g a u).1 in
  let g' := (update g a u).2 in
  r = Raise (Exception "Illegal action") /\
  g' = with_current_step g (current_step g + 1) /\
  current_step g' = current_step g + 1 /\
  state g' = state g /\ failed g' = failed g /\ history g' = history g.
Proof. intros Hl. by rewrite update_illegal. Qed.

Lemma update_illegal_action_raises_witness :
  (update fifty 51 0.1%R).1 = Raise (Exception "Illegal action") /\
  current_step (update fifty 51 0.1%R).2 = 1 /\
  state (update fifty 51 0.1%R).2 = 50.
Proof.
  destruct (update_illegal_action_raises fifty 51 0.1%R eq_refl)
    as (Hr & _ & Hstep & Hstate & _).
  by rewrite Hr, Hstep, Hstate.
Defined.

End GamblerFacts.

(** ** The PoleBalancing world *)

Module PoleFacts.
Import Py PyFacts PoleBalancing.
Local Open Scope R_scope.

(** [PoleBalancing()] with its default constants, the initial angle drawn
    in the middle of its range: the state with all four variables 0. *)
Definition at_rest : t := init 0.5 0.1 (-9.8) 0.02 300 0.5.

(** The step [i] of the episode: the world after the first [i] calls. *)
Definition after (start : t) (actions : list bool) (i : nat) : t :=
  run start (take i actions).

(** Some call of the episode left the pole or the cart out of bounds. *)
Definition failure_triggered (start : t) (actions : list bool) : Prop :=
  exists i, (1 <= i <= List.length actions)%nat /\
    (Rabs (angle (after start actions i)) >= max_angle start \/
     Rabs (x_pos (after start actions i)) >= max_x_pos start).

Lemma update_fields w a :
  let w' := (update w a).2 in
  (x_pos w', x_vel w', angle w', angle_vel w') = get_child_state w a /\
  current_step w' = (current_step w + 1)%Z /\
  balancing_failed w' =
    balancing_failed w || ge (Rabs (angle w')) (max_angle w) /\
  cart_exited w' = cart_exited w || ge (Rabs (x_pos w')) (max_x_pos w) /\
  steps w' = steps w /\ max_angle w' = max_angle w /\
  max_x_pos w' = max_x_pos w.
Proof.
  unfold update.
  destruct (get_child_state w a) as [[[x v] th] om].
  destruct (is_current_state_failed_state _); simpl;
    destruct (balancing_failed w), (cart_exited w); simpl;
    repeat split; try done;
    by destruct (ge _ _).
Qed.

Lemma pole_run_snoc w acts a : run w (acts ++ [a]) = (update (run w acts) a).2.
Proof. unfold run. by rewrite foldl_app. Qed.

Lemma run_constants acts : forall w,
  steps (run w acts) = steps w /\ max_angle (run w acts) = max_angle w /\
  max_x_pos (run w acts) = max_x_pos w /\
  current_step (run w acts) = (current_step w + Z.of_nat (List.length acts))%Z.
Proof.
  induction acts as [|a acts IH] using rev_ind; intros w.
  { simpl. repeat split; try done. lia. }
  rewrite pole_run_snoc, length_app. simpl.
  destruct (update_fields (run w acts) a) as (_ & Hc & _ & _ & Hs & Ha & Hx).
  destruct (IH w) as (IHs & IHa & IHx & IHc).
  simpl in *. rewrite Hs, Ha, Hx, Hc, IHs, IHa, IHx, IHc.
  repeat split; try done. lia.
Qed.

Lemma after_snoc_lt w acts a i :
  (i <= List.length acts)%nat -> after w (acts ++ [a]) i = after w acts i.
Proof. intros Hi. unfold after. by rewrite take_app_le. Qed.

Lemma after_all w acts : after w acts (List.length acts) = run w acts.
Proof. unfold after. by rewrite firstn_all. Qed.

Lemma failure_triggered_snoc w acts a :
  failure_triggered w (acts ++ [a]) <->
  failure_triggered w acts \/
  Rabs (angle (run w (acts ++ [a]))) >= max_angle w \/
  Rabs (x_pos (run w (acts ++ [a]))) >= max_x_pos w.
Proof.
  unfold failure_triggered. rewrite length_app. simpl. split.
  - intros (i & Hi & H).
    destruct (decide (i <= List.length acts)%nat) as [Hle|Hgt].
    + left. exists i. rewrite after_snoc_lt in H by done.
      split; [lia|done].
    + right. assert (i = List.length (acts ++ [a])) as ->
        by (rewrite length_app; simpl; lia).
      by rewrite after_all in H.
  - intros [(i & Hi & H)|H].
    + exists i. rewrite after_snoc_lt by lia. split; [lia|done].
    + exists (List.length (acts ++ [a])). rewrite after_all.
      split; [rewrite length_app; simpl; lia|done].
Qed.

Lemma run_failed_iff acts : forall w,
  is_current_state_failed_state (run w acts) = true <->
  is_current_state_failed_state w = true \/ failure_triggered w acts.
Proof.
  induction acts as [|a acts IH] using rev_ind; intros w.
  { simpl. split; [by left|]. intros [H|(i & Hi & _)]; [done|].
    simpl in Hi. lia. }
  rewrite failure_triggered_snoc, pole_run_snoc.
  destruct (update_fields (run w acts) a) as (_ & _ & Hb & Hc & _).
  destruct (run_constants acts w) as (_ & Ha & Hx & _).
  specialize (IH w). unfold is_current_state_failed_state in *.
  simpl in Hb, Hc. rewrite Hb, Hc, Ha, Hx.
  rewrite !orb_true_iff, !ge_true in *. tauto.
Qed.

Lemma run_flag_sticky acts : forall w,
  (balancing_failed w = true -> balancing_failed (run w acts) = true) /\
  (cart_exited w = true -> cart_exited (run w acts) = true).
Proof.
  induction acts as [|a acts IH] using rev_ind; intros w; [done|].
  rewrite pole_run_snoc.
  destruct (update_fields (run w acts) a) as (_ & _ & Hb & Hc & _).
  simpl in Hb, Hc. rewrite Hb, Hc. destruct (IH w) as [IHb IHc].
  split; intros H; [rewrite IHb|rewrite IHc]; done.
Qed.

Lemma at_rest_state :
  x_pos at_rest = 0 /\ x_vel at_rest = 0 /\ angle at_rest = 0 /\
  angle_vel at_rest = 0 /\ mass_c at_rest = 1 /\ force at_rest = 10 /\
  mass_p at_rest = 0.1 /\ length at_rest = 0.5.
Proof.
  unfold at_rest, init, produce_initial_state, uniform. simpl.
  repeat split; try done. lra.
Qed.

(** C7.  [get_child_state] is one forward-Euler step of size [tau] from
    the state the object holds: the new position and angle use the old
    velocities, the new velocities use the accelerations, and these are
    computed from the old state by the closed forms below ([F] is [force]
    for action [True] and [-force] for [False]).  [update] installs exactly
    these four values.  From the state with all four variables 0, with the
    cart mass 1 and force 10 of [__init__] and positive pole mass and
    length, both accelerations are different from 0 for either action:
    [angle_acc = -3F / (length (mass_p + 4))] and
    [x_acc = 4F / (mass_p + 4)]. *)
Theorem get_child_state_is_euler_step (w : t) (action : bool) :
  let F := if action then force w else - force w in
  let m := mass_p w in
  let M := mass_c w in
  let l := length w in
  let angle_acc :=
    (gravity w * sin (angle w) +
     cos (angle w) * (- F - m * l * angle_vel w ^ 2 * sin (angle w)) / (m + M))
    / (l * (4 / 3 - m * cos (angle w) ^ 2 / (m + M))) in
  let x_acc :=
    (F + m * l * (angle_vel w ^ 2 * sin (angle w) - angle_acc * cos (angle w)))
    / (m + M) in
  let w' := (update w action).2 in
  update_angle_acc w (bb_force w action) = angle_acc /\
  update_x_acc w (bb_force w action) angle_acc = x_acc /\
  get_child_state w action =
    (x_pos w + tau w * x_vel w, x_vel w + tau w * x_acc,
     angle w + tau w * angle_vel w, angle_vel w + tau w * angle_acc) /\
  (x_pos w', x_vel w', angle w', angle_vel w') = get_child_state w action /\
  (x_pos w = 0 -> x_vel w = 0 -> angle w = 0 -> angle_vel w = 0 ->
   mass_c w = 1 -> force w = 10 -> 0 < mass_p w -> 0 < length w ->
   let acc := update_angle_acc w (bb_force w action) in
   let xacc := update_x_acc w (bb_force w action) acc in
   acc = - 3 * F / (length w * (mass_p w + 4)) /\
   xacc = 4 * F / (mass_p w + 4) /\
   acc <> 0 /\ xacc <> 0).
Proof.
  intros F m M l angle_acc x_acc w'.
  assert (bb_force w action = F) as HF by (by destruct action).
  split; [by rewrite HF|]. split; [by rewrite HF|].
  split; [unfold get_child_state; by rewrite HF|].
  split; [apply update_fields|].
  intros _ _ Hth Hom HM Hforce Hm Hl. rewrite HF.
  fold m M l in HM, Hm, Hl |- *.
  change (update_angle_acc w F) with angle_acc.
  cbv zeta.
  assert (update_x_acc w F angle_acc = x_acc) as -> by reflexivity.
  assert (F = 10 \/ F = -10) as HF10.
  { subst F. rewrite Hforce. destruct action; [left|right]; lra. }
  assert (angle_acc = - 3 * F / (l * (m + 4))) as Hang.
  { subst angle_acc. rewrite Hth, Hom, HM, sin_0, cos_0. field. lra. }
  assert (x_acc = 4 * F / (m + 4)) as Hx.
  { subst x_acc. rewrite Hang, Hth, Hom, HM, sin_0, cos_0. field. lra. }
  split; [done|]. split; [done|].
  assert (0 < / (l * (m + 4))) by (apply Rinv_0_lt_compat; nra).
  assert (0 < / (m + 4)) by (apply Rinv_0_lt_compat; lra).
  rewrite Hang, Hx. unfold Rdiv. split; destruct HF10 as [-> | ->]; nra.
Qed.

Lemma get_child_state_is_euler_step_witness :
  let acc := fun a => update_angle_acc at_rest (bb_force at_rest a) in
  let xacc := fun a => update_x_acc at_rest (bb_force at_rest a) (acc a) in
  acc true = - 600 / 41 /\ xacc true = 400 / 41 /\
  acc false = 600 / 41 /\ xacc false = - 400 / 41.
Proof.
  intros acc xacc.
  destruct at_rest_state as (Hx & Hv & Hth & Hom & HM & Hf & Hm & Hl).
  pose proof (get_child_state_is_euler_step at_rest true) as Ht.
  pose proof (get_child_state_is_euler_step at_rest false) as Hff.
  cbv beta zeta iota in Ht, Hff.
  destruct Ht as (_ & _ & _ & _ & Ht). destruct Hff as (_ & _ & _ & _ & Hff).
  destruct Ht as (Ea1 & Ex1 & _); try done; try (rewrite ?Hm, ?Hl; lra).
  destruct Hff as (Ea2 & Ex2 & _); try done; try (rewrite ?Hm, ?Hl; lra).
  rewrite Hf, Hm in Ea1, Ex1, Ea2, Ex2. rewrite Hl in Ea1, Ea2.
  subst xacc acc. cbv beta. rewrite Ex1, Ex2, Ea1, Ea2.
  repeat split; lra.
Defined.

End PoleFacts.

(** ** Final and failed states of the two worlds *)

Module WorldFacts.
Import Py PyFacts.


Lemma late_winner_trajectory :
  let g1 := Gambler.run GamblerFacts.late_winner_start
              (take 1 GamblerFacts.late_winner_calls) in
  let g3 := Gambler.run GamblerFacts.late_winner_start
              GamblerFacts.late_winner_calls in
  Gambler.failed g1 = true /\ Gambler.state g1 = 49%Z /\
  Gambler.state g3 = 100%Z /\ Gambler.max_coins g3 = 100%Z /\
  Gambler.failed g3 = true.
Proof.
  unfold GamblerFacts.late_winner_calls. simpl take.
  rewrite !GamblerFacts.run_cons. unfold Gambler.run. cbn [foldl fst snd].
  destruct (GamblerFacts.update_lose_fields
              GamblerFacts.late_winner_start 1 0.9)
    as (Hs1 & Hm1 & Hb1 & Hw1 & Hf1);
    [by apply GamblerFacts.action_is_legal_true|simpl; lra|].
  specialize (Hf1 ltac:(done)).
  change (Gambler.state GamblerFacts.late_winner_start - 1)%Z
    with 49%Z in Hs1.
  change (Gambler.max_coins GamblerFacts.late_winner_start)
    with 100%Z in Hm1.
  change (Gambler.min_bet GamblerFacts.late_winner_start) with 1%Z in Hb1.
  change (Gambler.win_prob GamblerFacts.late_winner_start)
    with 0.4%R in Hw1.
  remember (Gambler.update GamblerFacts.late_winner_start 1 0.9).2
    as g1 eqn:E1. clear E1.
  destruct (GamblerFacts.update_win_fields g1 49 0.1)
    as (Hs2 & Hm2 & Hb2 & Hw2 & Hf2);
    [rewrite Hs1, Hm1, Hb1; lia|rewrite Hw1; lra|].
  remember (Gambler.update g1 49 0.1).2 as g2 eqn:E2. clear E2.
  rewrite Hs1 in Hs2. rewrite Hm1 in Hm2. rewrite Hb1 in Hb2.
  rewrite Hw1 in Hw2. specialize (Hf2 Hf1).
  destruct (GamblerFacts.update_win_fields g2 2 0.1)
    as (Hs3 & Hm3 & _ & _ & Hf3);
    [rewrite Hs2, Hm2, Hb2; lia|rewrite Hw2; lra|].
  rewrite Hs3, Hm3, Hs2, Hm2. repeat split; auto.
Qed.




(** C6.  In both worlds a failed state stays failed under every further
    call of [update], whatever the actions and wherever the continuous
    values go: in PoleBalancing each of [balancing_failed] and
    [cart_exited], once true, is true after any number of calls, and in
    Gambler so is [failed] (also across calls that raise).  Only
    [produce_initial_state] sets them back to false. *)
Theorem failed_state_is_monotonic :
  (forall (w : PoleBalancing.t) (actions : list bool),
     (PoleBalancing.balancing_failed w = true ->
      PoleBalancing.balancing_failed (PoleBalancing.run w actions) = true) /\
     (PoleBalancing.cart_exited w = true ->
      PoleBalancing.cart_exited (PoleBalancing.run w actions) = true) /\
     (PoleBalancing.is_current_state_failed_state w = true ->
      PoleBalancing.is_current_state_failed_state
        (PoleBalancing.run w actions) = true)) /\
  (forall (g : Gambler.t) (calls : list (Z * R)),
     Gambler.is_current_state_failed_state g = true ->
     Gambler.is_current_state_failed_state (Gambler.run g calls) = true) /\
  (forall (w : PoleBalancing.t) (u : R),
     PoleBalancing.is_current_state_failed_state
       (PoleBalancing.produce_initial_state w u).2 = false) /\
  (forall (g : Gambler.t) (k : Z),
     Gambler.is_current_state_failed_state
       (Gambler.produce_initial_state g k).2 = false).
Proof.
  split; [|split; [|split]].
  - intros w actions.
    destruct (PoleFacts.run_flag_sticky actions w) as [Hb Hc].
    split; [done|]. split; [done|].
    intros H. apply PoleFacts.run_failed_iff. by left.
  - intros g calls. apply GamblerFacts.run_failed_sticky.
  - done.
  - done.
Qed.

Lemma failed_state_is_monotonic_witness :
  Gambler.is_current_state_failed_state
    (Gambler.run
       (Gambler.run GamblerFacts.late_winner_start
          (take 1 GamblerFacts.late_winner_calls))
       (drop 1 GamblerFacts.late_winner_calls)) = true.
Proof.
  destruct failed_state_is_monotonic as (_ & Hg & _).
  refine (Hg _ _ _).
  destruct late_winner_trajectory as (Hf1 & _). exact Hf1.
Defined.

End WorldFacts.

(** * Further properties of the code *)

(** ** The Actor's tables *)

Module ActorExtras.
Import Py PyFacts Actor ActorFacts.
Local Open Scope R_scope.

#[local] Existing Instances Rle_decision Req_decision is_maximiser_dec.

Lemma get_eligibility_snd self p p' :
  eligibility (get_state_action_eligibility self p).2 p' = eligibility self p'.
Proof.
  unfold get_state_action_eligibility, eligibility.
  rewrite <- (getitem_peek (state_action_eligibility self) p p').
  by destruct (defaultdict_getitem _ _).
Qed.

Lemma getitem_table d k :
  (defaultdict_getitem d k).2 !! k = Some (peek d k) /\
  (d !! k = None -> size (defaultdict_getitem d k).2 = S (size d)) /\
  (is_Some (d !! k) -> (defaultdict_getitem d k).2 = d).
Proof.
  unfold defaultdict_getitem, peek. destruct (d !! k) eqn:Hk; simpl.
  - split; [done|]. split; [done|]. done.
  - split; [by rewrite lookup_insert_eq|]. split.
    + intros _. by apply map_size_insert_None.
    + by intros [? ?].
Qed.

Lemma argmax_values_result q acts :
  acts <> [] ->
  exists m, argmax_values q acts [] NegInf =
              (filter (fun a => q a = m) acts, Fin m) /\
            Forall (fun b => q b <= m) acts.
Proof.
  intros Hne.
  pose proof (argmax_values_inv q acts [] [] NegInf (conj eq_refl eq_refl))
    as Hinv.
  destruct (argmax_values q acts [] NegInf) as [ba b]. simpl in Hinv.
  destruct b as [|m]; simpl in Hinv.
  - by destruct Hinv as [-> _].
  - destruct Hinv as (-> & _ & Hall). by exists m.
Qed.

Lemma proposed_action_values self b state acts k :
  let self' := (get_proposed_action self b state acts k).2 in
  (forall q, value self' q = value self q) /\
  state_action_eligibility self' = state_action_eligibility self /\
  lrate self' = lrate self /\ drate self' = drate self /\
  trace_decay self' = trace_decay self.
Proof.
  unfold get_proposed_action. destruct b; simpl; [|done].
  assert (forall acts self ba bv,
    let self' := (argmax_loop self state acts ba bv).2 in
    (forall q, value self' q = value self q) /\
    state_action_eligibility self' = state_action_eligibility self /\
    lrate self' = lrate self /\ drate self' = drate self /\
    trace_decay self' = trace_decay self) as Hloop.
  { clear. induction acts as [|a acts IH]; intros self ba bv; [done|].
    simpl.
    pose proof (get_value_snd self (state ++ [a])) as Hs.
    pose proof (get_value_params self (state ++ [a])) as (He & Hl & Hd & Ht).
    destruct (get_state_action_value self (state ++ [a])) as [v self1].
    simpl in Hs, He, Hl, Hd, Ht.
    assert (forall ba' bv',
      let self' := (argmax_loop self1 state acts ba' bv').2 in
      (forall q, value self' q = value self q) /\
      state_action_eligibility self' = state_action_eligibility self /\
      lrate self' = lrate self /\ drate self' = drate self /\
      trace_decay self' = trace_decay self) as Hrec.
    { intros ba' bv'. destruct (IH self1 ba' bv') as (H1 & H2 & H3 & H4 & H5).
      simpl. rewrite H2, H3, H4, H5. repeat split; try done.
      intros q. by rewrite H1, Hs. }
    destruct (gt_e _ _); [apply Hrec|]. destruct (eq_e _ _); apply Hrec. }
  specialize (Hloop acts self [] NegInf).
  destruct (argmax_loop self state acts [] NegInf) as [[ba bv] self'].
  exact Hloop.
Qed.

(** X1.  Writing then reading: after [set_state_action_value(pair, v)] a
    read of [pair] returns [v], every other pair reads as before and the
    eligibility table is the same; likewise for
    [set_state_action_eligibility] with the two tables exchanged. *)
Theorem set_then_get (self : t) (pair : list Z) (v : R) :
  let sv := set_state_action_value self pair v in
  let se := set_state_action_eligibility self pair v in
  (get_state_action_value sv pair).1 = v /\
  (forall q, q <> pair -> value sv q = value self q) /\
  state_action_eligibility sv = state_action_eligibility self /\
  (get_state_action_eligibility se pair).1 = v /\
  (forall q, q <> pair -> eligibility se q = eligibility self q) /\
  policy se = policy self.
Proof.
  intros sv se.
  split; [|split; [|split; [done|split; [|split; [|done]]]]].
  - rewrite get_value_fst. unfold sv, value, peek. simpl.
    by rewrite lookup_insert_eq.
  - intros q Hq. unfold sv, value, peek. simpl.
    by rewrite lookup_insert_ne.
  - rewrite get_eligibility_fst. unfold se, eligibility, peek. simpl.
    by rewrite lookup_insert_eq.
  - intros q Hq. unfold se, eligibility, peek. simpl.
    by rewrite lookup_insert_ne.
Qed.

(** X2.  A read never changes what any read returns, but it is not free
    of effects: [get_state_action_value(pair)] leaves [pair] stored in the
    policy table, so a read of a pair that was absent adds one key (with
    value 0), and a read of a stored pair leaves the table as it is.  The
    eligibility table is not touched. *)
Theorem read_stores_the_default (self : t) (pair : list Z) :
  let v := (get_state_action_value self pair).1 in
  let self' := (get_state_action_value self pair).2 in
  v = value self pair /\
  (forall q, value self' q = value self q) /\
  policy self' !! pair = Some v /\
  (policy self !! pair = None ->
   v = 0 /\ size (policy self') = S (size (policy self))) /\
  (is_Some (policy self !! pair) -> policy self' = policy self) /\
  state_action_eligibility self' = state_action_eligibility self.
Proof.
  intros v self'. subst v self'.
  destruct (getitem_table (policy self) pair) as (Hl & Hn & Hs).
  split; [apply get_value_fst|]. split; [apply get_value_snd|].
  rewrite get_value_fst.
  unfold get_state_action_value, value.
  destruct (defaultdict_getitem (policy self) pair) as [v d] eqn:Hd.
  simpl in *. split; [done|]. split; [|split; [done|done]].
  intros Hnone. split; [|by apply Hn].
  unfold peek. by rewrite Hnone.
Qed.

(** X3.  After [initiate_eligibility()] every pair has eligibility 0 and
    the policy is as before; an [update_state_action_value] made in that
    state therefore changes no state-action value, whatever the TD error. *)
Theorem initiate_eligibility_clears (self : t) (pair : list Z) (td_error : R) :
  let cleared := initiate_eligibility self in
  (forall q, eligibility cleared q = 0) /\
  policy cleared = policy self /\
  (forall q, value (update_state_action_value cleared pair td_error) q =
             value self q).
Proof.
  intros cleared.
  assert (forall q, eligibility cleared q = 0) as Hz by done.
  split; [done|]. split; [done|]. intros q.
  unfold update_state_action_value.
  pose proof (get_value_fst cleared pair) as Hv.
  pose proof (get_value_snd cleared pair) as Hs.
  pose proof (get_value_params cleared pair) as (He & _).
  destruct (get_state_action_value cleared pair) as [v self1].
  simpl in Hv, Hs, He. subst v.
  pose proof (get_eligibility_fst self1 pair) as He1.
  pose proof (get_eligibility_params self1 pair) as (Hp & _).
  destruct (get_state_action_eligibility self1 pair) as [e self2].
  simpl in He1, Hp. subst e.
  assert (eligibility self1 pair = 0) as ->.
  { unfold eligibility. rewrite He. exact (Hz pair). }
  unfold value at 1, peek. simpl. rewrite Hp.
  destruct (decide (pair = q)) as [<-|Hne].
  - rewrite lookup_insert_eq. simpl.
    change (value cleared pair) with (value self pair). lra.
  - rewrite lookup_insert_ne by done.
    change (default 0 (policy self1 !! q)) with (value self1 q).
    by rewrite Hs.
Qed.

(** X4.  [update_state_action_value(pair, td_error)] changes the value of
    [pair] alone: every other pair reads as before, every eligibility reads
    as before, and the three rates are the same. *)
Theorem update_value_changes_one_pair (self : t) (pair : list Z)
    (td_error : R) :
  let self' := update_state_action_value self pair td_error in
  (forall q, q <> pair -> value self' q = value self q) /\
  (forall q, eligibility self' q = eligibility self q) /\
  lrate self' = lrate self /\ drate self' = drate self /\
  trace_decay self' = trace_decay self.
Proof.
  unfold update_state_action_value.
  pose proof (get_value_snd self pair) as Hs.
  pose proof (get_value_params self pair) as (He & Hl & Hd & Ht).
  destruct (get_state_action_value self pair) as [v self1].
  simpl in Hs, He, Hl, Hd, Ht.
  pose proof (get_eligibility_snd self1 pair) as Hs1.
  pose proof (get_eligibility_params self1 pair) as (Hp & Hl1 & Hd1 & Ht1).
  destruct (get_state_action_eligibility self1 pair) as [e self2].
  simpl in Hs1, Hp, Hl1, Hd1, Ht1. simpl.
  rewrite Hl1, Hd1, Ht1, Hl, Hd, Ht.
  split; [|split; [|done]].
  - intros q Hq. unfold value at 1, peek. simpl.
    rewrite lookup_insert_ne by done. rewrite Hp.
    change (default 0 (policy self1 !! q)) with (value self1 q).
    by rewrite Hs.
  - intros q.
    change (eligibility self2 q = eligibility self q).
    rewrite Hs1. unfold eligibility. by rewrite He.
Qed.

(** X5.  [update_state_action_eligibility(pair)] changes the eligibility
    of [pair] alone: every other pair keeps its eligibility and every
    state-action value reads as before. *)
Theorem update_eligibility_changes_one_pair (self : t) (pair : list Z) :
  let self' := update_state_action_eligibility self pair in
  (forall q, q <> pair -> eligibility self' q = eligibility self q) /\
  (forall q, value self' q = value self q) /\
  lrate self' = lrate self.
Proof.
  unfold update_state_action_eligibility.
  pose proof (get_eligibility_snd self pair) as Hs.
  pose proof (get_eligibility_params self pair) as (Hp & Hl & _).
  destruct (get_state_action_eligibility self pair) as [e self1].
  simpl in Hs, Hp, Hl. simpl.
  split; [|split; [|done]].
  - intros q Hq. unfold eligibility at 1, peek. simpl.
    rewrite lookup_insert_ne by done.
    change (default 0 (state_action_eligibility self1 !! q))
      with (eligibility self1 q).
    by rewrite Hs.
  - intros q. unfold value. simpl. by rewrite Hp.
Qed.

Lemma proposed_in_actions self b state acts k :
  acts <> [] ->
  exists a, (get_proposed_action self b state acts k).1 = Ret a /\ a ∈ acts.
Proof.
  intros Hne. destruct b; [|by apply choice_elem].
  set (q := fun a => value self (state ++ [a])).
  pose proof (argmax_loop_values state acts self [] NegInf) as Hl.
  destruct (argmax_values_result q acts Hne) as (m & Hres & _).
  pose proof (argmax_values_inv q acts [] [] NegInf (conj eq_refl eq_refl))
    as Hinv.
  rewrite Hres in Hinv. simpl in Hinv. destruct Hinv as (_ & Hbne & _).
  unfold get_proposed_action. cbn [negb].
  destruct (argmax_loop self state acts [] NegInf) as [[ba bv] self'].
  cbv zeta in Hl. fold q in Hl. destruct Hl as [Hl _].
  rewrite Hres in Hl. injection Hl as -> ->. cbn [fst].
  destruct (choice_elem (filter (fun a => q a = m) acts) k Hbne)
    as (a & Hc & Hin).
  exists a. split; [done|]. by apply list_elem_of_filter in Hin as [_ ?].
Qed.

(** X6.  With [do_argmax] false and a non-empty [possible_actions],
    [get_proposed_action] returns an element of [possible_actions]
    whatever the tables hold, every element is returned for some draw, and
    the actor is left exactly as it was (no table is read). *)
Theorem exploring_action (self : t) (state possible_actions : list Z)
    (k : nat) :
  possible_actions <> [] ->
  (exists a, (get_proposed_action self false state possible_actions k).1
             = Ret a /\ a ∈ possible_actions) /\
  (forall a, a ∈ possible_actions ->
     exists k', (get_proposed_action self false state possible_actions k').1
                = Ret a) /\
  (get_proposed_action self false state possible_actions k).2 = self.
Proof.
  intros Hne. simpl. split; [by apply choice_elem|].
  split; [apply choice_reaches|done].
Qed.

Lemma exploring_action_witness :
  exists a, (get_proposed_action abc false [1; 0]%Z [0; 1; 2]%Z 4).1 = Ret a /\
            a ∈ [0; 1; 2]%Z.
Proof.
  destruct (exploring_action abc [1; 0]%Z [0; 1; 2]%Z 4) as (H & _);
    [done|exact H].
Defined.

(** X7.  Proposing an action teaches nothing: after
    [get_proposed_action], greedy or not, every state-action value and
    every eligibility reads as before and the rates are the same (the
    greedy branch may only have stored default entries for pairs it
    looked up). *)
Theorem proposing_changes_no_value (self : t) (do_argmax : bool)
    (state possible_actions : list Z) (k : nat) :
  let self' :=
    (get_proposed_action self do_argmax state possible_actions k).2 in
  (forall q, value self' q = value self q) /\
  (forall q, eligibility self' q = eligibility self q) /\
  lrate self' = lrate self /\ drate self' = drate self /\
  trace_decay self' = trace_decay self.
Proof.
  destruct (proposed_action_values self do_argmax state possible_actions k)
    as (Hv & He & Hr).
  split; [exact Hv|]. split; [|exact Hr].
  intros q. unfold eligibility. by rewrite He.
Qed.

(** X8.  When all the actions of [possible_actions] have the same value in
    [state] (as in a state the actor has never updated, where all are 0),
    the greedy choice is [random.choice] over the whole of
    [possible_actions]: the result is the same as with [do_argmax] false. *)
Theorem greedy_without_preference (self : t) (state possible_actions : list Z)
    (k : nat) :
  (forall a b, a ∈ possible_actions -> b ∈ possible_actions ->
               value self (state ++ [a]) = value self (state ++ [b])) ->
  (get_proposed_action self true state possible_actions k).1 =
  (get_proposed_action self false state possible_actions k).1.
Proof.
  intros Heq. destruct possible_actions as [|a0 acts]; [done|].
  set (q := fun a => value self (state ++ [a])).
  pose proof (argmax_loop_values state (a0 :: acts) self [] NegInf) as Hl.
  destruct (argmax_values_result q (a0 :: acts)) as (m & Hres & Hall);
    [done|].
  unfold get_proposed_action. cbn [negb].
  destruct (argmax_loop self state (a0 :: acts) [] NegInf)
    as [[ba bv] self'].
  cbv zeta in Hl. fold q in Hl. destruct Hl as [Hl _].
  rewrite Hres in Hl. injection Hl as -> ->. cbn [fst].
  f_equal.
  assert (exists c, c ∈ a0 :: acts /\ q c = m) as (c & Hc & Hqc).
  { destruct (decide (q a0 = m)) as [H0|H0]; [exists a0; split; [left|done]|].
    exfalso.
    assert (q a0 < m) as Hlt.
    { apply Forall_cons_1 in Hall as [Hle _]. lra. }
    pose proof (argmax_values_inv q (a0 :: acts) [] [] NegInf
                  (conj eq_refl eq_refl)) as Hinv.
    rewrite Hres in Hinv. simpl in Hinv. destruct Hinv as (Hf & Hne & _).
    destruct (filter (fun a => q a = m) (a0 :: acts)) as [|c l] eqn:Hfl;
      [done|].
    assert (c ∈ filter (fun a => q a = m) (a0 :: acts)) as Hin
      by (rewrite Hfl; left).
    apply list_elem_of_filter in Hin as [Hqc Hcin].
    specialize (Heq a0 c ltac:(left) Hcin). unfold q in *. lra. }
  transitivity (filter (fun _ : Z => True) (a0 :: acts)).
  - apply filter_ext_elem. apply Forall_forall. intros a Ha.
    split; [done|]. intros _. unfold q. rewrite (Heq a c Ha Hc). exact Hqc.
  - clear. induction (a0 :: acts) as [|x l IH]; [done|].
    by rewrite filter_cons_True, IH.
Qed.

Lemma greedy_without_preference_witness :
  (get_proposed_action (init 0.1 0.9 0.5) true [1; 0]%Z [0; 1; 2]%Z 4).1 =
  (get_proposed_action (init 0.1 0.9 0.5) false [1; 0]%Z [0; 1; 2]%Z 4).1.
Proof.
  apply greedy_without_preference. intros a b _ _.
  unfold value, peek, init. simpl. by rewrite !lookup_empty.
Defined.

End ActorExtras.

(** ** The Gambler over whole sessions *)

Module GamblerExtras.
Import Py PyFacts Gambler GamblerFacts.
Local Open Scope Z_scope.

(** What a driver can do with a Gambler: start a new episode, make a step,
    record the length of the episode. *)
Inductive call : Type :=
| Reset (k : Z)
| Update (action : Z) (u : R)
| Store.

Definition exec (g : t) (c : call) : t :=
  match c with
  | Reset k => (produce_initial_state g k).2
  | Update action u => (update g action u).2
  | Store => store_game_length g
  end.

Definition is_store (c : call) : bool :=
  match c with Store => true | _ => false end.

(** The object after [Gambler(win_prob, max_steps)] and the calls [cs]. *)
Definition session (wp : R) (ms : Z) (k : Z) (cs : list call) : t :=
  foldl exec (init wp ms k) cs.

(** [b] is [None] for an empty list and the least element otherwise. *)
Definition least_of (b : option Z) (l : list Z) : Prop :=
  match b with
  | None => l = []
  | Some n => n ∈ l /\ Forall (fun m => n <= m) l
  end.

(** What every session keeps. *)
Definition invariant (g : t) : Prop :=
  well_formed g /\
  last (history g) = Some (state g) /\
  Forall (fun c => 0 <= c <= 100) (history g) /\
  (state g = 0 -> failed g = true) /\
  0 <= current_step g /\
  least_of (best_game_length g) (historic_game_length g).

Lemma invariant_init wp ms k : invariant (init wp ms k).
Proof.
  pose proof (init_well_formed wp ms k) as Hwf.
  assert (1 <= state (init wp ms k) <= 99) as Hs.
  { unfold init, produce_initial_state, randint. simpl.
    change (99 - 1 + 1) with 99.
    pose proof (Z.mod_pos_bound k 99). lia. }
  split; [done|]. split; [done|]. split.
  { unfold init, produce_initial_state. simpl. constructor; [|done].
    unfold init, produce_initial_state in Hs. simpl in Hs. lia. }
  split; [lia|]. split; [done|done].
Qed.

Lemma invariant_reset g k : invariant g -> invariant (produce_initial_state g k).2.
Proof.
  intros ((Hm & Hb & _) & _ & _ & _ & _ & Hbest).
  assert (1 <= randint 1 99 k <= 99) as Hs.
  { unfold randint. change (99 - 1 + 1) with 99.
    pose proof (Z.mod_pos_bound k 99). lia. }
  unfold invariant, well_formed, produce_initial_state. simpl.
  split; [lia|]. split; [done|]. split; [constructor; [lia|done]|].
  split; [lia|]. split; [done|done].
Qed.

Lemma invariant_update g a u : invariant g -> invariant (update g a u).2.
Proof.
  intros (Hwf & Hlast & Hall & H0 & Hstep & Hbest).
  pose proof (update_well_formed g a u Hwf) as Hwf'.
  destruct (action_is_legal g a) eqn:Hl.
  - rewrite update_legal in * by done. unfold invariant. simpl in *.
    split; [done|]. split; [by rewrite last_snoc|].
    split.
    { apply Forall_app. split; [done|]. constructor; [|done].
      destruct Hwf' as (_ & _ & Hs). exact Hs. }
    split.
    { intros ->. rewrite Z.eqb_refl. by rewrite !orb_true_r. }
    split; [lia|done].
  - rewrite update_illegal in * by done. unfold invariant. simpl.
    split; [done|]. split; [done|]. split; [done|]. split; [done|].
    split; [lia|done].
Qed.

Lemma invariant_store g : invariant g -> invariant (store_game_length g).
Proof.
  intros (Hwf & Hlast & Hall & H0 & Hstep & Hbest).
  unfold invariant, well_formed, store_game_length.
  destruct (best_game_length g) as [b|] eqn:Hb; simpl in Hbest.
  - destruct Hbest as [Hin Hmin].
    destruct (current_step g <? b) eqn:Hlt; simpl.
    + apply Z.ltb_lt in Hlt. repeat split; try done; try apply Hwf.
      * apply elem_of_app. right. left.
      * apply Forall_app. split; [|constructor; [lia|done]].
        eapply Forall_impl; [exact Hmin|]. simpl. intros; lia.
    + apply Z.ltb_ge in Hlt.
      repeat split; try done; try apply Hwf.
      * apply elem_of_app. by left.
      * apply Forall_app. split; [done|]. constructor; [lia|done].
  - simpl. rewrite Hbest. simpl.
    repeat split; try done; try apply Hwf.
    + left.
    + constructor; [lia|done].
Qed.

Lemma invariant_session wp ms k cs : invariant (session wp ms k cs).
Proof.
  unfold session. induction cs as [|c cs IH] using rev_ind.
  - apply invariant_init.
  - rewrite foldl_app. simpl. destruct c; simpl.
    + by apply invariant_reset.
    + by apply invariant_update.
    + by apply invariant_store.
Qed.

Lemma get_current_state_in_range g :
  0 <= state g <= max_coins g ->
  get_current_state g =
  Ret (<[Z.to_nat (state g) := 1]>
         (replicate (Z.to_nat (max_coins g + 1)) 0)).
Proof.
  intros Hs. unfold get_current_state. by rewrite decide_True by lia.
Qed.

Lemma index_absent v x : x ∉ v -> index v x = Raise ValueError.
Proof.
  induction v as [|y v IH]; [done|]. intros Hnin.
  apply not_elem_of_cons in Hnin as [Hne Hnin]. simpl.
  rewrite decide_False by done. by rewrite IH.
Qed.

Lemma index_first v x s :
  index v x = Ret s ->
  0 <= s /\ v !! Z.to_nat s = Some x /\
  forall j, (j < Z.to_nat s)%nat -> v !! j <> Some x.
Proof.
  revert s. induction v as [|y v IH]; intros s; [done|]. simpl.
  destruct (decide (y = x)) as [->|Hne].
  - intros [= <-]. split; [done|]. split; [done|]. intros j Hj. simpl in Hj. lia.
  - destruct (index v x) as [i|e] eqn:Hi; [|done]. simpl. intros [= <-].
    destruct (IH i eq_refl) as (Hi0 & Hlook & Hfirst).
    split; [lia|]. replace (Z.to_nat (i + 1)) with (S (Z.to_nat i)) by lia.
    split; [done|]. intros [|j] Hj; simpl.
    + congruence.
    + apply Hfirst. lia.
Qed.

Lemma run_steps calls : forall g,
  current_step (run g calls) = current_step g + Z.of_nat (length calls) /\
  max_steps (run g calls) = max_steps g.
Proof.
  induction calls as [|[a u] calls IH]; intros g; [simpl; lia|].
  rewrite run_cons. destruct (IH (update g a u).2) as [-> ->].
  destruct (action_is_legal g a) eqn:Hl.
  - rewrite update_legal by done. simpl. lia.
  - rewrite update_illegal by done. simpl. lia.
Qed.

(** X9.  [produce_initial_state] of a Gambler (with the constants of
    [__init__]) starts an episode that is alive: between 1 and 99 coins,
    step count 0, a history holding just the initial coins, neither failed
    nor final, the wager 1 legal; the lengths recorded by
    [store_game_length] survive the reset, and the value returned is the
    encoding of the new state. *)
Theorem initial_state_is_live (g : t) (k : Z) :
  max_coins g = 100 -> min_bet g = 1 ->
  let g' := (produce_initial_state g k).2 in
  1 <= state g' <= 99 /\ current_step g' = 0 /\ history g' = [state g'] /\
  is_current_state_failed_state g' = false /\
  is_current_state_final_state g' = false /\
  action_is_legal g' 1 = true /\
  historic_game_length g' = historic_game_length g /\
  best_game_length g' = best_game_length g /\
  (produce_initial_state g k).1 = get_current_state g'.
Proof.
  intros Hm Hb g'.
  assert (1 <= state g' <= 99) as Hs.
  { unfold g', produce_initial_state, randint. simpl.
    change (99 - 1 + 1) with 99. pose proof (Z.mod_pos_bound k 99). lia. }
  assert (max_coins g' = 100 /\ min_bet g' = 1) as [Hm' Hb'] by done.
  split; [done|]. split; [done|]. split; [done|]. split; [done|].
  split.
  { unfold is_current_state_final_state. rewrite Hm'. apply Z.eqb_neq. lia. }
  split; [apply action_is_legal_true; lia|done].
Qed.

Lemma initial_state_is_live_witness :
  1 <= state (produce_initial_state broke 7).2 <= 99 /\
  is_current_state_failed_state (produce_initial_state broke 7).2 = false.
Proof.
  destruct broke_state as (_ & Hm & Hb).
  destruct (initial_state_is_live broke 7 Hm Hb) as (H1 & _ & _ & H2 & _).
  split; [exact H1|exact H2].
Defined.

(** X10.  For a coin count inside the table, [get_current_state] returns
    a vector of [max_coins + 1] entries with a 1 at the position of the
    coin count and 0 everywhere else; decoding it with [index(1)] gives
    the coin count back, and [get_state_length] is [max_coins + 1]. *)
Theorem one_hot_round_trip (g : t) :
  0 <= state g <= max_coins g ->
  exists v, get_current_state g = Ret v /\
    length v = Z.to_nat (max_coins g + 1) /\
    (forall i, (i < length v)%nat ->
       v !! i = Some (if decide (Z.of_nat i = state g) then 1 else 0)) /\
    index v 1 = Ret (state g) /\
    get_state_length g = Ret (max_coins g + 1).
Proof.
  intros Hs. rewrite (get_current_state_in_range g Hs).
  set (n := Z.to_nat (max_coins g + 1)).
  assert (Z.to_nat (state g) < n)%nat as Hlt by lia.
  exists (<[Z.to_nat (state g) := 1]> (replicate n 0)).
  split; [done|]. split; [by rewrite length_insert, length_replicate|].
  split; [|split].
  - intros i Hi. rewrite length_insert, length_replicate in Hi.
    destruct (decide (Z.of_nat i = state g)) as [He|Hne].
    + replace i with (Z.to_nat (state g)) by lia.
      apply list_lookup_insert_eq. by rewrite length_replicate.
    + rewrite list_lookup_insert_ne by lia. by apply lookup_replicate_2.
  - rewrite index_one_hot by done. f_equal. lia.
  - unfold get_state_length. rewrite (get_current_state_in_range g Hs).
    simpl. rewrite length_insert, length_replicate. f_equal. lia.
Qed.

Lemma one_hot_round_trip_witness :
  exists v, get_current_state fifty = Ret v /\ index v 1 = Ret 50.
Proof.
  destruct (one_hot_round_trip fifty) as (v & Hv & _ & _ & Hi & _);
    [by change (state fifty) with 50; change (max_coins fifty) with 100|].
  exists v. split; [exact Hv|exact Hi].
Defined.

(** X11.  A coin count outside the table: above [max_coins], or below
    [-(max_coins + 1)], [get_current_state] and [get_state_length] raise
    [IndexError]; a negative count down to [-(max_coins + 1)] does not
    raise but marks the position counted from the end of the vector. *)
Theorem one_hot_out_of_range (g : t) :
  let n := max_coins g + 1 in
  (n <= state g \/ state g < - n ->
   get_current_state g = Raise IndexError /\
   get_state_length g = Raise IndexError) /\
  (- n <= state g < 0 ->
   get_current_state g =
   Ret (<[Z.to_nat (n + state g) := 1]> (replicate (Z.to_nat n) 0))).
Proof.
  intros n. split.
  - intros Hout.
    assert (get_current_state g = Raise IndexError) as Hr.
    { unfold get_current_state. fold n.
      rewrite decide_False by lia. by rewrite decide_False by lia. }
    split; [done|]. unfold get_state_length. by rewrite Hr.
  - intros Hneg. unfold get_current_state. fold n.
    rewrite decide_False by lia. by rewrite decide_True by lia.
Qed.

(** X12.  Whatever a driver does after [Gambler(win_prob, max_steps)]
    (new episodes, steps with any actions, legal or not, recordings of the
    episode length), the coins stay in [0, 100], the constants stay
    [max_coins = 100] and [min_bet = 1], and encoding the state never
    raises: [get_state_length] is always 101. *)
Theorem session_keeps_coins_in_range (wp : R) (ms k : Z) (cs : list call) :
  let g := session wp ms k cs in
  0 <= state g <= 100 /\ max_coins g = 100 /\ min_bet g = 1 /\
  (exists v, get_current_state g = Ret v /\ length v = 101%nat) /\
  get_state_length g = Ret 101.
Proof.
  intros g. destruct (invariant_session wp ms k cs) as ((Hm & Hb & Hs) & _).
  fold g in Hm, Hb, Hs.
  assert (0 <= state g <= max_coins g) as Hr by lia.
  split; [done|]. split; [done|]. split; [done|].
  pose proof (get_current_state_in_range g Hr) as Hv. rewrite Hm in Hv.
  split.
  - eexists. split; [exact Hv|].
    by rewrite length_insert, length_replicate.
  - unfold get_state_length. rewrite Hv.
    unfold mbind, result_bind, bind.
    by rewrite length_insert, length_replicate.
Qed.

(** X13.  In every session the history is never empty, its last entry is
    the current coin count, and all its entries are coin counts of
    [0, 100]. *)
Theorem history_ends_at_state (wp : R) (ms k : Z) (cs : list call) :
  let g := session wp ms k cs in
  last (history g) = Some (state g) /\ history g <> [] /\
  Forall (fun c => 0 <= c <= 100) (history g).
Proof.
  intros g. destruct (invariant_session wp ms k cs) as (_ & Hl & Hall & _).
  fold g in Hl, Hall. split; [done|]. split; [|done].
  intros Hnil. by rewrite Hnil in Hl.
Qed.

(** X14.  In every session a Gambler with no coins is a failed one:
    whenever the coin count is 0, [is_current_state_failed_state()] is
    true and [is_current_state_final_state()] is false. *)
Theorem broke_is_failed (wp : R) (ms k : Z) (cs : list call) :
  let g := session wp ms k cs in
  state g = 0 ->
  is_current_state_failed_state g = true /\
  is_current_state_final_state g = false.
Proof.
  intros g Hs.
  destruct (invariant_session wp ms k cs) as ((Hm & _) & _ & _ & H0 & _).
  fold g in Hm, H0. split; [by apply H0|].
  unfold is_current_state_final_state. rewrite Hs, Hm. done.
Qed.

Lemma session_broke : session 0.4 300 0 [Update 1 0.9%R] = broke.
Proof.
  unfold session, broke, run, last_coin. cbn [foldl exec fst snd].
  reflexivity.
Qed.

Lemma broke_is_failed_witness :
  is_current_state_failed_state broke = true.
Proof.
  pose proof (broke_is_failed 0.4%R 300 0 [Update 1 0.9%R]) as H.
  cbv zeta in H. rewrite session_broke in H.
  exact (proj1 (H (proj1 broke_state))).
Defined.

Lemma terminal_update g a u :
  well_formed g -> state g = 0 \/ state g = 100 ->
  update g a u =
  (Raise (Exception "Illegal action"),
   with_current_step g (current_step g + 1)).
Proof.
  intros (Hm & Hb & _) Hs. apply update_illegal.
  apply action_is_legal_false. lia.
Qed.

(** X15.  The two ends of the table absorb: once the coins are 0 or 100,
    every call of [update] raises, whatever the wager, and a run of such
    calls changes nothing but the step count, which still goes up by one
    per call. *)
Theorem terminal_states_absorb (g : t) (calls : list (Z * R)) :
  well_formed g -> state g = 0 \/ state g = 100 ->
  state (run g calls) = state g /\
  failed (run g calls) = failed g /\
  history (run g calls) = history g /\
  current_step (run g calls) = current_step g + Z.of_nat (length calls) /\
  forall a u,
    (update (run g calls) a u).1 = Raise (Exception "Illegal action").
Proof.
  revert g. induction calls as [|[a u] calls IH]; intros g Hwf Hs.
  - simpl. repeat split; try done; try lia.
    intros a u. by rewrite terminal_update.
  - rewrite run_cons, (terminal_update g a u Hwf Hs). cbn [snd].
    destruct (IH (with_current_step g (current_step g + 1)))
      as (H1 & H2 & H3 & H4 & H5); [done|done|].
    rewrite H1, H2, H3, H4. simpl. repeat split; try done. lia.
Qed.

Lemma terminal_states_absorb_witness :
  state (run broke [(1, 0.1%R); (5, 0.1%R)]) = state broke /\
  (update (run broke [(1, 0.1%R); (5, 0.1%R)]) 1 0.1%R).1 =
    Raise (Exception "Illegal action").
Proof.
  destruct broke_state as (Hs & Hm & Hb).
  destruct (terminal_states_absorb broke [(1, 0.1%R); (5, 0.1%R)])
    as (H1 & _ & _ & _ & H5).
  - split; [done|]. split; [done|]. rewrite Hs. lia.
  - by left.
  - split; [exact H1|exact (H5 1 0.1%R)].
Defined.

(** X16.  The Actor and the Gambler fit together away from the ends: with
    1 to 99 coins, whatever the Actor's tables, mode and draw, the action
    it proposes from [get_legal_actions()] is accepted by
    [action_is_legal], so [update] does not raise; the reward is the wager
    or its negative and the coins stay in [0, 100]. *)
Theorem proposed_wager_is_accepted (g : t) (actor : Actor.t)
    (do_argmax : bool) (st : list Z) (k : nat) (u : R) :
  well_formed g -> 1 <= state g <= 99 ->
  exists acts a r,
    get_legal_actions g None = Ret acts /\
    (Actor.get_proposed_action actor do_argmax st acts k).1 = Ret a /\
    action_is_legal g a = true /\
    (update g a u).1 = Ret r /\ (r = a \/ r = - a) /\
    0 <= state (update g a u).2 <= 100.
Proof.
  intros Hwf Hs. pose proof Hwf as (Hm & Hb & _).
  set (acts := wagers (state g) 100).
  assert (get_legal_actions g None = Ret acts) as Hget.
  { rewrite get_legal_actions_None, Hm, Hb. unfold acts, wagers.
    rewrite (seqZ_cons 1) by lia. do 3 f_equal. lia. }
  assert (acts <> []) as Hne.
  { unfold acts, wagers. rewrite (seqZ_cons 1) by lia. done. }
  destruct (ActorExtras.proposed_in_actions actor do_argmax st acts k Hne)
    as (a & Ha & Hin).
  apply elem_of_wagers in Hin.
  assert (action_is_legal g a = true) as Hl.
  { apply action_is_legal_true. rewrite Hm, Hb. lia. }
  exists acts, a, (get_child_state g a u - state g).
  split; [done|]. split; [done|]. split; [done|].
  pose proof (update_well_formed g a u Hwf) as (_ & _ & Hr).
  rewrite update_legal in * by done. cbn [fst snd] in *.
  split; [done|]. split; [|done].
  unfold get_child_state. destruct (lt u (win_prob g)); lia.
Qed.

Lemma proposed_wager_is_accepted_witness :
  exists acts a r,
    get_legal_actions fifty None = Ret acts /\
    (Actor.get_proposed_action ActorFacts.abc true [1; 0] acts 4).1 = Ret a /\
    action_is_legal fifty a = true /\
    (update fifty a 0.1%R).1 = Ret r.
Proof.
  destruct (proposed_wager_is_accepted fifty ActorFacts.abc true [1; 0] 4
              0.1%R (init_well_formed _ _ _))
    as (acts & a & r & H1 & H2 & H3 & H4 & _).
  - change (state fifty) with 50. lia.
  - exists acts, a, r. by repeat split.
Defined.

(** X17.  [get_legal_actions(state)] with an explicit encoded state looks
    at that vector only: it raises [ValueError] when the vector holds no
    1, and otherwise returns the wagers for the position of the first 1,
    the same list a Gambler with that many coins returns without an
    argument, whatever coins the object itself holds. *)
Theorem legal_actions_of_encoded_state (g : t) (v : list Z) :
  (1 ∉ v -> get_legal_actions g (Some v) = Raise ValueError) /\
  (forall s, index v 1 = Ret s ->
     0 <= s /\ v !! Z.to_nat s = Some 1 /\
     (forall j, (j < Z.to_nat s)%nat -> v !! j <> Some 1) /\
     get_legal_actions g (Some v) = get_legal_actions (with_state g s) None) /\
  (1 ∈ v -> exists s, index v 1 = Ret s).
Proof.
  split; [|split].
  - intros Hnin. unfold get_legal_actions. by rewrite index_absent.
  - intros s Hi. destruct (index_first v 1 s Hi) as (H0 & Hl & Hf).
    split; [done|]. split; [done|]. split; [done|].
    unfold get_legal_actions. by rewrite Hi.
  - induction v as [|y v IH]; [by intros ?%elem_of_nil|].
    intros Hin. simpl.
    destruct (decide (y = 1)) as [->|Hne]; [exists 0; reflexivity|].
    apply elem_of_cons in Hin as [Heq|Hin]; [congruence|].
    destruct (IH Hin) as [s ->]. exists (s + 1). reflexivity.
Qed.

(** X18.  In every session [best_game_length] is the least of the episode
    lengths recorded so far ([float('inf')] while none is recorded), and
    [historic_game_length] has one entry per call of [store_game_length]:
    each such call appends the current step count, and neither [update]
    (raising or not) nor [produce_initial_state] changes
    [best_game_length] or [historic_game_length]. *)
Theorem best_game_length_is_least (wp : R) (ms k : Z) (cs : list call) :
  let g := session wp ms k cs in
  least_of (best_game_length g) (historic_game_length g) /\
  length (historic_game_length g) =
  length (filter (fun c => is_store c = true) cs) /\
  (forall (g0 : t) (a : Z) (u : R),
     best_game_length (update g0 a u).2 = best_game_length g0 /\
     historic_game_length (update g0 a u).2 = historic_game_length g0) /\
  (forall (g0 : t) (k0 : Z),
     best_game_length (produce_initial_state g0 k0).2 = best_game_length g0 /\
     historic_game_length (produce_initial_state g0 k0).2 =
       historic_game_length g0) /\
  (forall g0 : t,
     historic_game_length (store_game_length g0) =
     historic_game_length g0 ++ [current_step g0]).
Proof.
  intros g. split; [apply (invariant_session wp ms k cs)|].
  split; [|split; [|split; [done|]]].
  - unfold g, session. induction cs as [|c cs IH] using rev_ind; [done|].
    rewrite foldl_app, filter_app, length_app. cbn [foldl].
    set (g0 := foldl exec (init wp ms k) cs) in *.
    destruct c as [k'|a u|].
    + rewrite filter_cons_False, filter_nil by done.
      cbn [exec length]. rewrite Nat.add_0_r. exact IH.
    + rewrite filter_cons_False, filter_nil by done.
      cbn [exec length]. rewrite Nat.add_0_r.
      destruct (action_is_legal g0 a) eqn:Hl.
      * by rewrite update_legal.
      * by rewrite update_illegal.
    + rewrite filter_cons_True, filter_nil by done.
      cbn [exec length]. rewrite <- IH. unfold store_game_length.
      destruct (if match best_game_length g0 with
                   | Some b => _ | None => true end then _ else _).
      cbn [historic_game_length]. by rewrite length_app.
  - intros g0 a u. destruct (action_is_legal g0 a) eqn:Hl.
    + by rewrite update_legal.
    + by rewrite update_illegal.
  - intros g0. unfold store_game_length.
    by destruct (if match best_game_length g0 with
                    | Some b => _ | None => true end then _ else _).
Qed.

(** X19.  [current_step] counts calls of [update], those that raise
    included; and a call with a legal action made when the count reaches
    [max_steps] or more leaves the world failed. *)
Theorem step_counter_and_timeout (g : t) (calls : list (Z * R)) :
  current_step (run g calls) = current_step g + Z.of_nat (length calls) /\
  forall a u,
    action_is_legal (run g calls) a = true ->
    max_steps g <= current_step g + Z.of_nat (length calls) + 1 ->
    is_current_state_failed_state (update (run g calls) a u).2 = true.
Proof.
  destruct (run_steps calls g) as [Hc Hm]. split; [done|].
  intros a u Hl Hle. rewrite update_legal by done.
  unfold is_current_state_failed_state. simpl. rewrite Hc, Hm.
  apply Z.leb_le in Hle. rewrite Hle. by rewrite orb_true_r.
Qed.

Lemma step_counter_and_timeout_witness :
  current_step (run late_winner_start [(99, 0.1%R)]) = 1 /\
  is_current_state_failed_state
    (update (run late_winner_start []) 1 0.1%R).2 = true.
Proof.
  destruct (step_counter_and_timeout late_winner_start [(99, 0.1%R)])
    as [Hc _].
  destruct (step_counter_and_timeout late_winner_start []) as [_ Hf].
  split; [exact Hc|]. apply Hf; [done|]. simpl. lia.
Defined.

End GamblerExtras.

(** ** The PoleBalancing encoding, rewards and dynamics *)

Module PoleExtras.
Import Py PyFacts PoleBalancing PoleFacts.
Local Open Scope R_scope.

(** [r] brought into [-abs_max, abs_max]. *)
Definition saturate (abs_max r : Z) : Z := Z.max (- abs_max) (Z.min r abs_max).

(** The world seen in a mirror: positions, angles and both velocities
    change sign, everything else stays. *)
Definition mirror (w : t) : t :=
  with_vars w (- x_pos w) (- x_vel w) (- angle w) (- angle_vel w)
    (current_step w) (balancing_failed w) (cart_exited w) (historic_angle w).

Definition negate (s : R * R * R * R) : R * R * R * R :=
  let '(a, b, c, d) := s in (- a, - b, - c, - d).

(** [l] has [n] entries, a 1 at position [p] and 0 everywhere else. *)
Definition one_hot (l : list Z) (n : nat) (p : Z) : Prop :=
  List.length l = n /\
  forall i, (i < n)%nat ->
    l !! i = Some (if decide (Z.of_nat i = p) then 1%Z else 0%Z).

(** The physical constants and the step limit of two worlds agree. *)
Definition same_constants (w w' : t) : Prop :=
  length w' = length w /\ mass_p w' = mass_p w /\ gravity w' = gravity w /\
  tau w' = tau w /\ mass_c w' = mass_c w /\ force w' = force w /\
  max_angle w' = max_angle w /\ max_x_pos w' = max_x_pos w /\
  steps w' = steps w.

(** [b] is [None] for an empty list and the greatest element otherwise. *)
Definition greatest_of (b : option Z) (l : list Z) : Prop :=
  match b with
  | None => l = []
  | Some n => n ∈ l /\ Forall (fun m => (m <= n)%Z) l
  end.

Lemma first_bucket_seqZ r n : forall lo i,
  (0 < n)%nat ->
  first_bucket r (seqZ lo (Z.of_nat n)) i =
  if decide (r <= lo + Z.of_nat n - 1)%Z
  then Some (i + Z.to_nat (r - lo))%nat else None.
Proof.
  induction n as [|n IH]; intros lo i Hn; [lia|].
  rewrite seqZ_cons by lia.
  replace (Z.pred (Z.of_nat (S n))) with (Z.of_nat n) by lia.
  cbn [first_bucket].
  destruct (Z.leb_spec r lo) as [Hle|Hgt].
  - rewrite decide_True by lia. f_equal. lia.
  - destruct n as [|n].
    + simpl. by rewrite decide_False by lia.
    + rewrite IH by lia.
      destruct (decide (r <= Z.succ lo + Z.of_nat (S n) - 1)%Z).
      * rewrite decide_True by lia. f_equal. lia.
      * by rewrite decide_False by lia.
Qed.

Lemma one_hot_variable_eq r m :
  (0 <= m)%Z ->
  one_hot_variable r m =
  <[Z.to_nat (saturate m r + m) := 1%Z]>
    (replicate (Z.to_nat (m * 2 + 1)) 0%Z).
Proof.
  intros Hm. unfold one_hot_variable, range, saturate.
  replace (m + 1 - - m)%Z with (Z.of_nat (Z.to_nat (m * 2 + 1))) by lia.
  rewrite first_bucket_seqZ by lia.
  destruct (decide _) as [Hle|Hgt]; f_equal; lia.
Qed.

Lemma one_hot_variable_length r m :
  (0 <= m)%Z -> List.length (one_hot_variable r m) = Z.to_nat (m * 2 + 1).
Proof.
  intros Hm. rewrite one_hot_variable_eq by done.
  by rewrite length_insert, length_replicate.
Qed.

Lemma one_hot_variable_index r m :
  (0 <= m)%Z -> index (one_hot_variable r m) 1 = Ret (saturate m r + m)%Z.
Proof.
  intros Hm. rewrite one_hot_variable_eq by done.
  rewrite GamblerFacts.index_one_hot by (unfold saturate; lia).
  f_equal. unfold saturate. lia.
Qed.

(** X20.  [one_hot_variable(rounded_var, abs_max)] saturates: for a
    non-negative [abs_max] the vector has [2 * abs_max + 1] entries, a 1 at
    position [c + abs_max] where [c] is [rounded_var] brought into
    [-abs_max, abs_max] and 0 everywhere else, so values beyond the range
    land in the first or the last bucket; [index(1)] recovers
    [c + abs_max]. *)
Theorem one_hot_variable_saturates (rounded_var abs_max : Z) :
  (0 <= abs_max)%Z ->
  let v := one_hot_variable rounded_var abs_max in
  let c := saturate abs_max rounded_var in
  List.length v = Z.to_nat (2 * abs_max + 1) /\
  (forall i, (i < List.length v)%nat ->
     v !! i = Some (if decide (Z.of_nat i = c + abs_max)%Z
                    then 1%Z else 0%Z)) /\
  index v 1 = Ret (c + abs_max)%Z /\
  ((rounded_var <= - abs_max)%Z -> v !! 0%nat = Some 1%Z) /\
  ((abs_max <= rounded_var)%Z ->
   v !! Z.to_nat (2 * abs_max) = Some 1%Z).
Proof.
  intros Hm v c.
  assert (List.length v = Z.to_nat (2 * abs_max + 1)) as Hlen.
  { unfold v. rewrite one_hot_variable_length by done. f_equal. lia. }
  assert (forall i, (i < List.length v)%nat ->
     v !! i = Some (if decide (Z.of_nat i = c + abs_max)%Z
                    then 1%Z else 0%Z)) as Hlook.
  { intros i Hi. rewrite Hlen in Hi. unfold v.
    rewrite one_hot_variable_eq by done. fold c.
    assert (0 <= c + abs_max < 2 * abs_max + 1)%Z
      by (unfold c, saturate; lia).
    destruct (decide (Z.of_nat i = c + abs_max)%Z) as [He|Hne].
    - replace i with (Z.to_nat (c + abs_max)) by lia.
      apply list_lookup_insert_eq. rewrite length_replicate. lia.
    - rewrite list_lookup_insert_ne by lia.
      apply lookup_replicate_2. lia. }
  split; [done|]. split; [done|].
  split; [by apply one_hot_variable_index|]. split.
  - intros Hr. rewrite Hlook by lia.
    rewrite decide_True; [done|]. unfold c, saturate. lia.
  - intros Hr. rewrite Hlook by lia.
    rewrite decide_True; [done|]. unfold c, saturate. lia.
Qed.

Lemma one_hot_variable_saturates_witness :
  index (one_hot_variable 9 3) 1 = Ret 6%Z /\
  index (one_hot_variable (-9) 3) 1 = Ret 0%Z /\
  index (one_hot_variable 2 3) 1 = Ret 5%Z.
Proof.
  destruct (one_hot_variable_saturates 9 3) as (_ & _ & H1 & _); [lia|].
  destruct (one_hot_variable_saturates (-9) 3) as (_ & _ & H2 & _); [lia|].
  destruct (one_hot_variable_saturates 2 3) as (_ & _ & H3 & _); [lia|].
  split; [exact H1|]. split; [exact H2|exact H3].
Defined.

Lemma sign_cases x :
  (x < 0 /\ sign x = (-1)%Z) \/ (x = 0 /\ sign x = 0%Z) \/
  (0 < x /\ sign x = 1%Z).
Proof.
  unfold sign, lt, gt.
  destruct (Rlt_dec x 0); [left; split; [lra|done]|].
  destruct (Rgt_dec x 0); [right; right; split; [lra|done]|].
  right; left. split; [lra|done].
Qed.

Lemma one_hot_variable_one_hot r m :
  (0 <= m)%Z ->
  one_hot (one_hot_variable r m) (Z.to_nat (m * 2 + 1)) (saturate m r + m) /\
  (0 <= saturate m r + m < m * 2 + 1)%Z.
Proof.
  intros Hm.
  assert (0 <= saturate m r + m < m * 2 + 1)%Z as Hp
    by (unfold saturate; lia).
  split; [|done]. split; [by apply one_hot_variable_length|].
  intros i Hi. rewrite one_hot_variable_eq by done.
  destruct (decide (Z.of_nat i = saturate m r + m)%Z) as [He|Hne].
  - replace i with (Z.to_nat (saturate m r + m)) by lia.
    apply list_lookup_insert_eq. rewrite length_replicate. lia.
  - rewrite list_lookup_insert_ne by lia. by apply lookup_replicate_2.
Qed.

(** X21.  The encoded state is a vector of 20 entries made of four
    one-hot blocks of 3, 7, 3 and 7 entries: each block holds a single 1,
    all its other entries being 0, at the position given, in this order,
    by the sign of the position, the rounded cart velocity brought into
    [-3, 3], the sign of the angle, and the rounded angular velocity
    brought into [-3, 3] (each shifted to start at 0); [index(1)] on a
    block recovers that position. *)
Theorem encoded_state_decodes (w : t) :
  let v := get_current_state w in
  let p0 := (sign (x_pos w) + 1)%Z in
  let p1 := (saturate 3 (round (x_vel w)) + 3)%Z in
  let p2 := (sign (angle w) + 1)%Z in
  let p3 := (saturate 3 (round (angle_vel w)) + 3)%Z in
  get_state_length w = 20%Z /\
  (one_hot (take 3 v) 3 p0 /\ (0 <= p0 < 3)%Z) /\
  (one_hot (take 7 (drop 3 v)) 7 p1 /\ (0 <= p1 < 7)%Z) /\
  (one_hot (take 3 (drop 10 v)) 3 p2 /\ (0 <= p2 < 3)%Z) /\
  (one_hot (drop 13 v) 7 p3 /\ (0 <= p3 < 7)%Z) /\
  v = take 3 v ++ take 7 (drop 3 v) ++ take 3 (drop 10 v) ++ drop 13 v /\
  index (take 3 v) 1 = Ret p0 /\
  index (take 7 (drop 3 v)) 1 = Ret p1 /\
  index (take 3 (drop 10 v)) 1 = Ret p2 /\
  index (drop 13 v) 1 = Ret p3.
Proof.
  intros v p0 p1 p2 p3. unfold get_state_length. fold v.
  unfold v, get_current_state, round_state, one_hot_state.
  assert (forall x, saturate 1 (sign x) = sign x) as Hsat.
  { intros x. unfold saturate.
    destruct (sign_cases x) as [[_ ->]|[[_ ->]|[_ ->]]]; lia. }
  pose proof (one_hot_variable_one_hot (sign (x_pos w)) 1 ltac:(lia)) as HA1.
  pose proof (one_hot_variable_one_hot (round (x_vel w)) 3 ltac:(lia)) as HB1.
  pose proof (one_hot_variable_one_hot (sign (angle w)) 1 ltac:(lia)) as HC1.
  pose proof (one_hot_variable_one_hot (round (angle_vel w)) 3 ltac:(lia))
    as HD1.
  rewrite Hsat in HA1, HC1.
  pose proof (one_hot_variable_index (sign (x_pos w)) 1 ltac:(lia)) as HA2.
  pose proof (one_hot_variable_index (round (x_vel w)) 3 ltac:(lia)) as HB2.
  pose proof (one_hot_variable_index (sign (angle w)) 1 ltac:(lia)) as HC2.
  pose proof (one_hot_variable_index (round (angle_vel w)) 3 ltac:(lia))
    as HD2.
  rewrite Hsat in HA2, HC2.
  fold p0 in HA1, HA2. fold p1 in HB1, HB2.
  fold p2 in HC1, HC2. fold p3 in HD1, HD2.
  set (A := one_hot_variable (sign (x_pos w)) 1) in *.
  set (B := one_hot_variable (round (x_vel w)) 3) in *.
  set (C := one_hot_variable (sign (angle w)) 1) in *.
  set (D := one_hot_variable (round (angle_vel w)) 3) in *.
  assert (List.length A = 3%nat) as HA by apply HA1.
  assert (List.length B = 7%nat) as HB by apply HB1.
  assert (List.length C = 3%nat) as HC by apply HC1.
  assert (List.length D = 7%nat) as HD by apply HD1.
  assert (take 3 (A ++ B ++ C ++ D) = A) as ->
    by (by rewrite take_app_length').
  assert (take 7 (drop 3 (A ++ B ++ C ++ D)) = B) as ->.
  { rewrite drop_app_length' by done. by rewrite take_app_length'. }
  assert (take 3 (drop 10 (A ++ B ++ C ++ D)) = C) as ->.
  { rewrite (app_assoc A B). rewrite drop_app_length'
      by (rewrite length_app, HA, HB; done).
    by rewrite take_app_length'. }
  assert (drop 13 (A ++ B ++ C ++ D) = D) as ->.
  { rewrite (app_assoc A B), (app_assoc (A ++ B) C).
    by rewrite drop_app_length' by (rewrite !length_app, HA, HB, HC; done). }
  split; [rewrite !length_app, HA, HB, HC, HD; done|].
  change (Z.to_nat (1 * 2 + 1)) with 3%nat in *.
  change (Z.to_nat (3 * 2 + 1)) with 7%nat in *.
  change (1 * 2 + 1)%Z with 3%Z in *. change (3 * 2 + 1)%Z with 7%Z in *.
  repeat split; (done || apply HA1 || apply HB1 || apply HC1 || apply HD1).
Qed.

(** X22.  [get_child_state(action, rounded=True)] predicts the encoding of
    the next state: it is what [get_current_state()] returns after
    [update(action)]. *)
Theorem rounded_child_state_is_next_encoding (w : t) (action : bool) :
  get_current_state (update w action).2 = get_child_state_rounded w action.
Proof.
  destruct (update_fields w action) as (Hs & _).
  unfold get_current_state, get_child_state_rounded.
  cbv zeta in Hs. by rewrite Hs.
Qed.

(** X23.  The two discretisation primitives.  [round] returns an integer
    at distance at most 1/2, leaves integers alone and sends a value
    halfway between two integers to the even one; [np.sign] returns -1, 0
    or 1 according to the sign. *)
Theorem round_is_half_to_even (x : R) :
  Rabs (x - IZR (round x)) <= 1 / 2 /\
  (forall k : Z, x = IZR k -> round x = k) /\
  (forall k : Z, x = IZR k + 1 / 2 ->
     Z.even (round x) = true /\ (round x = k \/ round x = (k + 1)%Z)) /\
  (sign x = (-1)%Z <-> x < 0) /\ (sign x = 0%Z <-> x = 0) /\
  (sign x = 1%Z <-> 0 < x).
Proof.
  pose proof (base_Int_part x) as [Hlo Hhi].
  split; [|split; [|split]].
  - unfold round, lt, gt.
    destruct (Rlt_dec _ _) as [H1|H1].
    + apply Rabs_le. lra.
    + destruct (Rgt_dec _ _) as [H2|H2].
      * rewrite plus_IZR. apply Rabs_le. lra.
      * destruct (Z.even _); [|rewrite plus_IZR]; apply Rabs_le; lra.
  - intros k ->.
    assert (Int_part (IZR k) = k) as Hk
      by (symmetry; apply Int_part_spec; lra).
    unfold round. rewrite Hk. unfold lt.
    destruct (Rlt_dec _ _) as [H1|H1]; [done|lra].
  - intros k ->.
    assert (Int_part (IZR k + 1 / 2) = k) as Hk
      by (symmetry; apply Int_part_spec; lra).
    unfold round. rewrite Hk. unfold lt, gt.
    destruct (Rlt_dec _ _) as [H1|H1]; [lra|].
    destruct (Rgt_dec _ _) as [H2|H2]; [lra|].
    destruct (Z.even k) eqn:He; [by split; [|left]|].
    split; [|by right].
    rewrite Z.add_1_r, Z.even_succ, <- Z.negb_even, He. done.
  - destruct (sign_cases x) as [[? ->]|[[? ->]|[? ->]]];
      repeat split; intros; (done || lra || lia).
Qed.

Lemma update_reward w a :
  (update w a).1 =
  if is_current_state_failed_state (update w a).2 then (-1000)%Z else 1%Z.
Proof.
  unfold update. destruct (get_child_state w a) as [[[x v] th] om].
  by destruct (is_current_state_failed_state _) eqn:Hf; simpl; rewrite Hf.
Qed.

(** X24.  The reward of [update] is 1 or -1000; it is -1000 exactly when
    the world is failed after the call, so a call that leaves the world in
    a final state is rewarded 1, and once the world has failed every later
    call is rewarded -1000. *)
Theorem reward_follows_failure (w : t) (action : bool) :
  let r := (update w action).1 in
  let w' := (update w action).2 in
  (r = 1%Z \/ r = (-1000)%Z) /\
  (r = (-1000)%Z <-> is_current_state_failed_state w' = true) /\
  (is_current_state_final_state w' = true -> r = 1%Z) /\
  (is_current_state_failed_state w = true ->
   forall actions b, (update (run w actions) b).1 = (-1000)%Z).
Proof.
  pose proof update_reward as Hr.
  intros r w'. subst r w'. rewrite Hr.
  split; [destruct (is_current_state_failed_state _); auto|].
  split; [by destruct (is_current_state_failed_state _)|].
  split.
  - unfold is_current_state_final_state, is_current_state_failed_state.
    destruct (cart_exited _), (balancing_failed _); simpl;
      rewrite ?andb_false_r; done.
  - intros Hf actions b. rewrite Hr.
    assert (is_current_state_failed_state (run w (actions ++ [b])) = true)
      as Hrun by (apply run_failed_iff; by left).
    rewrite pole_run_snoc in Hrun. by rewrite Hrun.
Qed.

Lemma update_bookkeeping w a :
  let w' := (update w a).2 in
  same_constants w w' /\
  current_step w' = (current_step w + 1)%Z /\
  historic_angle w' = historic_angle w ++ [angle w'] /\
  best_game_length w' = best_game_length w /\
  historic_game_length w' = historic_game_length w.
Proof.
  unfold update, same_constants.
  destruct (get_child_state w a) as [[[x v] th] om].
  by destruct (is_current_state_failed_state _).
Qed.

Lemma run_bookkeeping acts : forall w,
  same_constants w (run w acts) /\
  current_step (run w acts) =
    (current_step w + Z.of_nat (List.length acts))%Z /\
  List.length (historic_angle (run w acts)) =
    (List.length (historic_angle w) + List.length acts)%nat /\
  (last (historic_angle w) = Some (angle w) ->
   last (historic_angle (run w acts)) = Some (angle (run w acts))).
Proof.
  induction acts as [|a acts IH] using rev_ind; intros w.
  { simpl. unfold same_constants. repeat split; try done; lia. }
  rewrite pole_run_snoc, length_app.
  destruct (IH w) as (Hc & Hs & Hl & Hlast).
  destruct (update_bookkeeping (run w acts) a) as (Hc' & Hs' & Hh & _).
  cbv zeta in Hc', Hs', Hh. rewrite Hs', Hs, Hh, length_app, Hl.
  unfold same_constants in *.
  destruct Hc as (? & ? & ? & ? & ? & ? & ? & ? & ?).
  destruct Hc' as (? & ? & ? & ? & ? & ? & ? & ? & ?).
  split; [repeat split; congruence|]. split; [simpl; lia|].
  split; [simpl; lia|]. intros _. by rewrite last_snoc.
Qed.

(** X25.  Over an episode ([produce_initial_state], then any calls of
    [update]) [current_step] is the number of calls, [historic_angle]
    holds one angle more than there were calls and ends with the current
    angle, and the physical constants and the step limit never change. *)
Theorem episode_bookkeeping (w0 : t) (u : R) (actions : list bool) :
  let w := run (produce_initial_state w0 u).2 actions in
  current_step w = Z.of_nat (List.length actions) /\
  List.length (historic_angle w) = S (List.length actions) /\
  last (historic_angle w) = Some (angle w) /\
  same_constants w0 w.
Proof.
  intros w.
  destruct (run_bookkeeping actions (produce_initial_state w0 u).2)
    as (Hc & Hs & Hl & Hlast).
  fold w in Hc, Hs, Hl, Hlast.
  split; [rewrite Hs; simpl; lia|]. split; [rewrite Hl; simpl; lia|].
  split; [by apply Hlast|exact Hc].
Qed.

(** X26.  After an episode [is_current_state_failed_state()] is true
    exactly when some call of [update] in it left the angle with
    magnitude at least [max_angle] or the position with magnitude at
    least [max_x_pos]: nothing else sets the flags, and an initial angle
    on the bound does not. *)
Theorem failed_iff_out_of_bounds (w0 : t) (u : R) (actions : list bool) :
  let start := (produce_initial_state w0 u).2 in
  is_current_state_failed_state (run start actions) = true <->
  failure_triggered start actions.
Proof.
  intros start. rewrite run_failed_iff.
  split; [|by right]. intros [H|H]; [|done]. discriminate H.
Qed.

(** X27.  The dynamics are mirror-symmetric: for positive masses and
    length, pushing the mirrored world the other way gives the mirrored
    child state (all four variables with the opposite sign), and the
    reward of the step is the same. *)
Theorem dynamics_are_mirror_symmetric (w : t) (action : bool) :
  0 < mass_p w -> 0 < mass_c w -> 0 < length w ->
  get_child_state (mirror w) (negb action) = negate (get_child_state w action)
  /\ (update (mirror w) (negb action)).1 = (update w action).1.
Proof.
  intros Hm HM Hl.
  assert (get_child_state (mirror w) (negb action) =
          negate (get_child_state w action)) as Hchild.
  { unfold get_child_state, update_x_acc, update_angle_acc, bb_force, negate,
      mirror.
    simpl. rewrite !sin_neg, !cos_neg.
    destruct action; simpl; f_equal; [f_equal; [f_equal|]| |
                                      f_equal; [f_equal|]|];
      unfold Rdiv; ring. }
  split; [done|].
  rewrite !update_reward.
  destruct (update_fields w action) as (Hs & _ & Hb & Hc & _).
  destruct (update_fields (mirror w) (negb action))
    as (Hs' & _ & Hb' & Hc' & _).
  cbv zeta in Hs, Hb, Hc, Hs', Hb', Hc'.
  rewrite Hchild, <- Hs in Hs'. simpl in Hs'.
  injection Hs' as Hx _ Hth _.
  unfold is_current_state_failed_state.
  rewrite Hb, Hc, Hb', Hc', Hx, Hth, !Rabs_Ropp. done.
Qed.

Lemma dynamics_are_mirror_symmetric_witness :
  get_child_state (mirror at_rest) false = negate (get_child_state at_rest true).
Proof.
  destruct at_rest_state as (_ & _ & _ & _ & HM & _ & Hm & Hl).
  destruct (dynamics_are_mirror_symmetric at_rest true) as [H _];
    [rewrite Hm; lra|rewrite HM; lra|rewrite Hl; lra|exact H].
Defined.

(** X28.  With positive masses and length the dynamics never divide by
    zero: the denominator of the angular acceleration is above a third of
    the pole length whatever the angle, so both accelerations satisfy the
    equations they are computed from. *)
Theorem accelerations_are_well_defined (w : t) (F acc : R) :
  0 < mass_p w -> 0 < mass_c w -> 0 < length w ->
  let den :=
    length w * (4 / 3 - mass_p w * cos (angle w) ^ 2 /
                          (mass_p w + mass_c w)) in
  length w / 3 < den /\
  update_angle_acc w F * den =
    gravity w * sin (angle w) +
    cos (angle w) *
      (- F - mass_p w * length w * angle_vel w ^ 2 * sin (angle w)) /
      (mass_p w + mass_c w) /\
  update_x_acc w F acc * (mass_p w + mass_c w) =
    F + mass_p w * length w *
          (angle_vel w ^ 2 * sin (angle w) - acc * cos (angle w)).
Proof.
  intros Hm HM Hl den.
  assert (0 <= cos (angle w) ^ 2 <= 1) as Hc.
  { pose proof (COS_bound (angle w)). nra. }
  assert (mass_p w * cos (angle w) ^ 2 / (mass_p w + mass_c w) < 1) as Hq.
  { assert (0 < / (mass_p w + mass_c w)) as Hi
      by (apply Rinv_0_lt_compat; lra).
    assert ((mass_p w + mass_c w) * / (mass_p w + mass_c w) = 1) as H1
      by (field; lra).
    assert (mass_p w * cos (angle w) ^ 2 < mass_p w + mass_c w) as Hlt
      by nra.
    pose proof (Rmult_lt_compat_r _ _ _ Hi Hlt) as Hmul.
    rewrite H1 in Hmul. exact Hmul. }
  assert (length w / 3 < den) as Hden by (unfold den; nra).
  split; [done|]. split.
  - unfold update_angle_acc. fold den. field. split; lra.
  - unfold update_x_acc. field. lra.
Qed.

Lemma accelerations_are_well_defined_witness :
  length at_rest / 3 <
  length at_rest * (4 / 3 - mass_p at_rest * cos (angle at_rest) ^ 2 /
                            (mass_p at_rest + mass_c at_rest)).
Proof.
  destruct at_rest_state as (_ & _ & _ & _ & HM & _ & Hm & Hl).
  destruct (accelerations_are_well_defined at_rest 10 0) as [H _];
    [rewrite Hm; lra|rewrite HM; lra|rewrite Hl; lra|exact H].
Defined.

(** X29.  [produce_initial_state] starts an episode with the pole within
    bounds and everything else at rest: for a draw [u] of [0, 1) and a
    non-negative [max_angle] the angle is in [-max_angle, max_angle], the
    position and both velocities are 0, the step count is 0, the world is
    not failed, [historic_angle] holds just the initial angle, the
    constants are kept, and the value returned is the encoding of the new
    state. *)
Theorem initial_state_is_within_bounds (w0 : t) (u : R) :
  0 <= u < 1 -> 0 <= max_angle w0 ->
  let w := (produce_initial_state w0 u).2 in
  - max_angle w0 <= angle w <= max_angle w0 /\
  x_pos w = 0 /\ x_vel w = 0 /\ angle_vel w = 0 /\
  current_step w = 0%Z /\
  is_current_state_failed_state w = false /\
  historic_angle w = [angle w] /\
  same_constants w0 w /\
  (produce_initial_state w0 u).1 = get_current_state w.
Proof.
  intros Hu Hmax w.
  assert (angle w = - max_angle w0 + (max_angle w0 - - max_angle w0) * u)
    as Ha by done.
  split; [rewrite Ha; nra|]. unfold same_constants. repeat split; done.
Qed.

Lemma initial_state_is_within_bounds_witness :
  - max_angle at_rest <= angle (produce_initial_state at_rest 0.5).2
    <= max_angle at_rest.
Proof.
  destruct (initial_state_is_within_bounds at_rest 0.5) as (H & _).
  - lra.
  - change (max_angle at_rest) with 0.21. lra.
  - exact H.
Defined.

(** X30.  [store_game_length] keeps [best_game_length] the greatest of
    the recorded episode lengths: if it is before the call
    ([float('-inf')] standing for no record), it is after it, the current
    step count having been appended to [historic_game_length]; when the
    current episode is strictly longer than the best so far its angles
    become [best_history], otherwise [best_history] stays.  [update] and
    [produce_initial_state] touch none of the three. *)
Theorem best_episode_is_longest (w : t) :
  greatest_of (best_game_length w) (historic_game_length w) ->
  let w' := store_game_length w in
  greatest_of (best_game_length w') (historic_game_length w') /\
  historic_game_length w' = historic_game_length w ++ [current_step w] /\
  (best_history w' =
   if match best_game_length w with
      | None => true
      | Some b => (b <? current_step w)%Z
      end
   then historic_angle w else best_history w) /\
  (forall a, let w1 := (update w a).2 in
     best_game_length w1 = best_game_length w /\
     historic_game_length w1 = historic_game_length w /\
     best_history w1 = best_history w) /\
  (forall u, let w1 := (produce_initial_state w u).2 in
     best_game_length w1 = best_game_length w /\
     historic_game_length w1 = historic_game_length w /\
     best_history w1 = best_history w).
Proof.
  intros Hbest w'.
  split; [|split; [|split; [|split]]].
  - unfold w', store_game_length.
    destruct (best_game_length w) as [b|] eqn:Hb; simpl in Hbest.
    + destruct Hbest as [Hin Hmax].
      destruct (b <? current_step w)%Z eqn:Hlt; simpl.
      * apply Z.ltb_lt in Hlt. split; [apply elem_of_app; right; left|].
        apply Forall_app. split; [|constructor; [lia|done]].
        eapply Forall_impl; [exact Hmax|]. simpl. intros; lia.
      * apply Z.ltb_ge in Hlt. split; [apply elem_of_app; by left|].
        apply Forall_app. split; [done|]. constructor; [lia|done].
    + simpl. rewrite Hbest. simpl. split; [left|]. constructor; [lia|done].
  - unfold w', store_game_length.
    by destruct (if match best_game_length w with
                    | Some b => _ | None => true end then _ else _).
  - unfold w', store_game_length.
    by destruct (match best_game_length w with
                 | Some b => _ | None => true end).
  - intros a w1. unfold w1, update.
    destruct (get_child_state w a) as [[[x v] th] om].
    by destruct (is_current_state_failed_state _).
  - done.
Qed.

Lemma best_episode_is_longest_witness :
  greatest_of (best_game_length (store_game_length at_rest))
              (historic_game_length (store_game_length at_rest)).
Proof.
  destruct (best_episode_is_longest at_rest) as [H _]; [done|exact H].
Defined.

End PoleExtras.
